(** * The ATM cash dispenser of [atm-cor-lld/index.ts]

    A chain of responsibility: [MainHandler] guards a linked chain of
    [INoteHandler] objects, one per denomination.  Each handler owns a
    note value and a mutable note count and forwards what it cannot pay
    to its [nextHandler].

    Amounts, note values and note counts are JavaScript numbers in the
    source, that is binary64 floating-point numbers, and integers in
    every use the program makes of them.  The development has the
    program twice.

    The main model computes on [Z]: [Math.floor (amount / noteValue)] is
    [Z.div] (floor division) and products, sums and differences are
    exact.  It is the program as long as every number the program
    computes is an integer of magnitude at most 2^53 and no note value
    is zero: such integers are binary64 numbers, a product, sum or
    difference of two of them that is again such an integer is computed
    without rounding, and the floor of the rounded quotient of two of
    them is the floor of their quotient.  [withinSafeRange] bounds the
    amount and the stock so that this is the case ([numbers_exact]), and
    the theorems whose truth depends on exact arithmetic assume it,
    together with positive note values.

    [Binary64] is the same program on binary64 numbers themselves.  It
    shows what the program does beyond that range, where results are
    rounded.

    The [notesDispensed] object is a finite map from note values to
    counts. *)

From Stdlib Require Import ZArith Lia Sorted PrimFloat SpecFloat FloatOps.
From Stdlib Require Uint63.
From stdpp Require Import base option list fin_maps gmap.

Local Open Scope Z_scope.

(** ** Data model *)

(** [interface IDispenseResponse] (lines 19-24). *)
Record IDispenseResponse : Type := Response {
  success : bool;
  notesDispensed : gmap Z Z
}.

(** [abstract class INoteHandler] (lines 46-51): the two constructor
    fields and the private [nextHandler], [None] for [null].  A value of
    this type is a finite chain without sharing or cycles, which is the
    only kind of chain whose note values are pairwise distinct. *)
#[local] Unset Elimination Schemes.
Inductive INoteHandler : Type := NoteHandler {
  noteValue : Z;
  noteCount : Z;
  nextHandler : option INoteHandler
}.
#[local] Set Elimination Schemes.

(** One invocation of [INoteHandler.dispense]: the receiver's note value
    and the amount it was called with.  The list of invocations is kept
    next to the result so that "no handler was called" can be stated. *)
Record Call : Type := Invoke { receiver : Z; argument : Z }.

(** ** Operations *)

(** [setNext] (lines 53-55).  Handlers are values here, not references,
    so a chain is linked from its tail upwards. *)
Definition setNext (h handler : INoteHandler) : INoteHandler :=
  NoteHandler (noteValue h) (noteCount h) (Some handler).

(** The three concrete subclasses (lines 101-117). *)
Definition ThousandWorthHandler (noteCount : Z) : INoteHandler :=
  NoteHandler 1000 noteCount None.
Definition FiveHundredWorthHandler (noteCount : Z) : INoteHandler :=
  NoteHandler 500 noteCount None.
Definition HundredWorthHandler (noteCount : Z) : INoteHandler :=
  NoteHandler 100 noteCount None.

(** Truthiness of [this.nextHandler]. *)
Definition hasNext (next : option INoteHandler) : bool :=
  match next with Some _ => true | None => false end.

(** Lines 65-73: the handler's own allocation.  Returns the
    [notesDispensed] object, the new [noteCount] and [remainingAmount]. *)
Definition settle (value count : Z) (next : option INoteHandler)
    (amount : Z) : gmap Z Z * Z * Z :=
  let requiredNotes := amount / value in
  if requiredNotes <? count then
    (<[value := requiredNotes]> ∅, count - requiredNotes,
     amount - value * requiredNotes)
  else if (count <? requiredNotes) && hasNext next then
    (<[value := count]> ∅, 0, amount - value * count)
  else (∅, count, amount).

(** Line 89: [response.notesDispensed[this.noteValue] || 0]. *)
Definition dispensedOrZero (notes : gmap Z Z) (value : Z) : Z :=
  default 0 (notes !! value).

(** [INoteHandler.dispense] (lines 57-93).  The result is the response,
    the receiver (with its successors) after the call, and the calls
    made, the receiver's own first.  The spread
    [{...response.notesDispensed, ...nextResponse.notesDispensed}] lets
    the successor's entries win, hence the left-biased union with the
    successor's map on the left. *)
Fixpoint dispense (h : INoteHandler) (amount : Z)
    : IDispenseResponse * INoteHandler * list Call :=
  match h with
  | NoteHandler value count next =>
    let '(notes, count1, remainingAmount) := settle value count next amount in
    let '(response, next', calls) :=
      if remainingAmount =? 0 then (Response true notes, next, [])
      else
        match next with
        | Some n =>
          if 0 <? remainingAmount then
            let '(nextResponse, n', calls) := dispense n remainingAmount in
            if success nextResponse
            then (Response true (notesDispensed nextResponse ∪ notes),
                  Some n', calls)
            else (Response false notes, Some n', calls)
          else (Response false notes, next, [])
        | None => (Response false notes, next, [])
        end in
    let count2 :=
      if success response then count1
      else count1 + dispensedOrZero (notesDispensed response) value in
    (response, NoteHandler value count2 next', Invoke value amount :: calls)
  end.

(** [MainHandler.dispense] (lines 29-39); the chain head is the
    constructor's [nextHandler]. *)
Definition MainHandler_dispense (nextHandler : INoteHandler) (amount : Z)
    : IDispenseResponse * INoteHandler * list Call :=
  if (amount <=? 0) || (amount <? 100) then
    (Response false ∅, nextHandler, [])
  else
    let '(response, chain, calls) := dispense nextHandler amount in
    (if success response then response else Response false ∅, chain, calls).

(** [getNoteCount] (lines 95-98) as the lines it logs: every handler's
    note value and remaining count, in chain order. *)
Fixpoint getNoteCount (h : INoteHandler) : list (Z * Z) :=
  match h with
  | NoteHandler value count next =>
    (value, count) ::
      match next with Some n => getNoteCount n | None => [] end
  end.

(** [MainHandler.remainingNotes] (lines 41-43). *)
Definition remainingNotes (nextHandler : INoteHandler) : list (Z * Z) :=
  getNoteCount nextHandler.

(** The example wiring of lines 120-126. *)
Definition exampleChain (thousands fiveHundreds hundreds : Z) : INoteHandler :=
  setNext (ThousandWorthHandler thousands)
    (setNext (FiveHundredWorthHandler fiveHundreds)
       (HundredWorthHandler hundreds)).

(** ** Derived notions used in the statements *)

(** The note values of a chain, head first. *)
Definition denominations (h : INoteHandler) : list Z := (getNoteCount h).*1.

(** Every note value of the chain is positive. *)
Definition positiveNotes (h : INoteHandler) : Prop :=
  Forall (λ value, 0 < value) (denominations h).

(** Every note count of the chain is non-negative. *)
Definition stocked (h : INoteHandler) : Prop :=
  Forall (λ count, 0 <= count) (getNoteCount h).*2.

(** The value of an allocation: the sum of note value times count. *)
Definition weightedSum (notes : gmap Z Z) : Z :=
  map_fold (λ value count acc, value * count + acc) 0 notes.

(** The total value of the stock of a chain. *)
Definition stockValue (h : INoteHandler) : Z :=
  foldr (λ p acc, p.1 * p.2 + acc) 0 (getNoteCount h).

(** Projections of a run. *)
Definition responseOf (r : IDispenseResponse * INoteHandler * list Call) := r.1.1.
Definition chainAfter (r : IDispenseResponse * INoteHandler * list Call) := r.1.2.
Definition callsOf (r : IDispenseResponse * INoteHandler * list Call) := r.2.

(** The chain of the example with its handlers linked the other way
    round, smallest note first. *)
Definition ascendingChain (hundreds fiveHundreds thousands : Z) : INoteHandler :=
  setNext (HundredWorthHandler hundreds)
    (setNext (FiveHundredWorthHandler fiveHundreds)
       (ThousandWorthHandler thousands)).

(** The smallest note value of the chain. *)
Fixpoint smallestDenomination (h : INoteHandler) : Z :=
  match h with
  | NoteHandler value _ next =>
    match next with
    | Some n => Z.min value (smallestDenomination n)
    | None => value
    end
  end.

(** The stock of a chain after an allocation has been taken out of it:
    every handler gives up the count recorded under its note value. *)
Definition debit (notes : gmap Z Z) (entry : Z * Z) : Z * Z :=
  (entry.1, entry.2 - dispensedOrZero notes entry.1).

(** ** A call of [dispense] as a derivation *)

(** The four ways a call of [dispense] can go, as a derivation:
    the handler settles the amount on its own; it forwards the rest and
    the successor succeeds; it forwards and the successor fails; or the
    rest can be forwarded to nobody. *)
Inductive dispenses :
  INoteHandler → Z → IDispenseResponse → INoteHandler → list Call → Prop :=
| dispenses_exact value count next amount notes count1 :
    settle value count next amount = (notes, count1, 0) →
    dispenses (NoteHandler value count next) amount
      (Response true notes) (NoteHandler value count1 next)
      [Invoke value amount]
| dispenses_forward value count n amount notes count1 rest r n' calls :
    settle value count (Some n) amount = (notes, count1, rest) →
    0 < rest →
    dispenses n rest r n' calls →
    success r = true →
    dispenses (NoteHandler value count (Some n)) amount
      (Response true (notesDispensed r ∪ notes))
      (NoteHandler value count1 (Some n'))
      (Invoke value amount :: calls)
| dispenses_restore value count n amount notes count1 rest r n' calls :
    settle value count (Some n) amount = (notes, count1, rest) →
    0 < rest →
    dispenses n rest r n' calls →
    success r = false →
    dispenses (NoteHandler value count (Some n)) amount
      (Response false notes)
      (NoteHandler value (count1 + dispensedOrZero notes value) (Some n'))
      (Invoke value amount :: calls)
| dispenses_stuck value count next amount notes count1 rest :
    settle value count next amount = (notes, count1, rest) →
    rest ≠ 0 →
    rest < 0 ∨ next = None →
    dispenses (NoteHandler value count next) amount
      (Response false notes)
      (NoteHandler value (count1 + dispensedOrZero notes value) next)
      [Invoke value amount].

(** ** The range in which the arithmetic is exact *)

(** What a chain can contribute to the magnitude of the numbers of a
    call: for every handler its note value times one more than the
    magnitude of its count. *)
Definition exposure (h : INoteHandler) : Z :=
  foldr (λ entry acc, entry.1 * (Z.abs entry.2 + 1) + acc) 0 (getNoteCount h).

(** The amount and the stock are small enough for every number of the
    call to be an integer of magnitude at most 2^53. *)
Definition withinSafeRange (h : INoteHandler) (amount : Z) : Prop :=
  Z.abs amount + exposure h <= 2 ^ 53.

(** The numbers lines 59-73 compute: the quotient, and the differences
    and products of the branch taken. *)
Definition settleNumbers (value count : Z) (next : option INoteHandler)
    (amount : Z) : list Z :=
  let requiredNotes := amount / value in
  if requiredNotes <? count then
    [requiredNotes; count - requiredNotes; value * requiredNotes;
     amount - value * requiredNotes]
  else if (count <? requiredNotes) && hasNext next then
    [requiredNotes; value * count; amount - value * count]
  else [requiredNotes].

(** Every number a call of [dispense] reads or computes, the numbers of
    the successors' calls included; the sum of line 89 is listed whether
    or not the call fails. *)
Fixpoint numbers (h : INoteHandler) (amount : Z) : list Z :=
  match h with
  | NoteHandler value count next =>
    let '(notes, count1, remainingAmount) := settle value count next amount in
    [amount; value; count] ++ settleNumbers value count next amount
    ++ [count1 + dispensedOrZero notes value]
    ++ (if remainingAmount =? 0 then []
        else
          match next with
          | Some n =>
            if 0 <? remainingAmount then numbers n remainingAmount else []
          | None => []
          end)
  end.

(** ** Exact change *)

(** An amount is payable from a stock if some choice of notes, of every
    note value at most as many as there are, adds up to it. *)
Inductive payable : list (Z * Z) → Z → Prop :=
| payable_nil : payable [] 0
| payable_cons value count stock notes amount :
    0 <= notes <= count →
    payable stock amount →
    payable ((value, count) :: stock) (value * notes + amount).

(** Every note value is a multiple of the next one in the chain, as
    1000, 500 and 100 are. *)
Fixpoint graded (stock : list (Z * Z)) : Prop :=
  match stock with
  | entry :: rest =>
    match rest with
    | smaller :: _ => (smaller.1 | entry.1) ∧ graded rest
    | [] => True
    end
  | [] => True
  end.

(** A call that asks a handler for an amount that needs exactly the
    notes the handler holds, and the handler holds some. *)
Definition meetsWholeStock (call : Call) (entry : Z * Z) : bool :=
  negb (entry.2 =? 0) && (argument call / entry.1 =? entry.2).

(** Some call of the run meets the whole stock of its handler.  The
    calls go down the chain from its head, so the call and the handler
    at the same position belong together. *)
Definition wholeStockMet (h : INoteHandler) (amount : Z) : bool :=
  existsb (λ met, meetsWholeStock met.1 met.2)
    (zip (callsOf (dispense h amount)) (getNoteCount h)).

(** ** The program on binary64 numbers *)

Module Binary64.

(** [Math.floor]: the largest integer that is not above [x]; an
    infinity, a NaN, a zero and every number of magnitude 2^52 or more
    is its own floor. *)
Definition floor (x : float) : float :=
  match Prim2SF x with
  | S754_finite negative mantissa exponent =>
    if exponent <? 0 then
      let whole :=
        (if negative then Z.neg mantissa else Z.pos mantissa)
        / 2 ^ (- exponent) in
      if whole <? 0 then (- of_uint63 (Uint63.of_Z (- whole)))%float
      else of_uint63 (Uint63.of_Z whole)
    else x
  | _ => x
  end.

(** The integer a number stands for, if it is one. *)
Definition integer (x : float) : option Z :=
  match Prim2SF x with
  | S754_zero _ => Some 0
  | S754_finite negative mantissa exponent =>
    let signed := if negative then Z.neg mantissa else Z.pos mantissa in
    if 0 <=? exponent then Some (signed * 2 ^ exponent)
    else if signed mod 2 ^ (- exponent) =? 0
         then Some (signed / 2 ^ (- exponent)) else None
  | _ => None
  end.

(** An object with numbers as property names.  The names are compared
    as the strings JavaScript makes of them, under which the two zeros
    are one name and NaN is a name like any other. *)
Definition sameKey (x y : float) : bool :=
  (x =? y)%float || (PrimFloat.is_nan x && PrimFloat.is_nan y).

Fixpoint lookup (key : float) (object : list (float * float)) : option float :=
  match object with
  | [] => None
  | (name, x) :: object' =>
    if sameKey key name then Some x else lookup key object'
  end.

Fixpoint assign (key x : float) (object : list (float * float))
    : list (float * float) :=
  match object with
  | [] => [(key, x)]
  | (name, y) :: object' =>
    if sameKey key name then (name, x) :: object'
    else (name, y) :: assign key x object'
  end.

(** [{...mine, ...theirs}]. *)
Definition spread (mine theirs : list (float * float)) : list (float * float) :=
  foldl (λ object entry, assign entry.1 entry.2 object) mine theirs.

(** [x || 0]: zero for a missing property, a zero and a NaN. *)
Definition orZero (x : option float) : float :=
  match x with
  | Some x => if PrimFloat.is_zero x || PrimFloat.is_nan x then 0%float else x
  | None => 0%float
  end.

(** [interface IDispenseResponse] (lines 19-24). *)
Record IDispenseResponse : Type := Response {
  success : bool;
  notesDispensed : list (float * float)
}.

(** [abstract class INoteHandler] (lines 46-51). *)
#[local] Unset Elimination Schemes.
Inductive INoteHandler : Type := NoteHandler {
  noteValue : float;
  noteCount : float;
  nextHandler : option INoteHandler
}.
#[local] Set Elimination Schemes.

(** [INoteHandler.dispense] (lines 57-93): the response and the
    receiver, with its successors, after the call. *)
Fixpoint dispense (h : INoteHandler) (amount : float)
    : IDispenseResponse * INoteHandler :=
  match h with
  | NoteHandler value count next =>
    let requiredNotes := floor (amount / value) in
    let '(notes, count1, remainingAmount) :=
      if (requiredNotes <? count)%float then
        (assign value requiredNotes [], (count - requiredNotes)%float,
         (amount - value * requiredNotes)%float)
      else if (count <? requiredNotes)%float
              && match next with Some _ => true | None => false end then
        (assign value count [], 0%float, (amount - value * count)%float)
      else ([], count, amount) in
    let '(response, next') :=
      if (remainingAmount =? 0)%float then (Response true notes, next)
      else
        match next with
        | Some n =>
          if (0 <? remainingAmount)%float then
            let '(nextResponse, n') := dispense n remainingAmount in
            if success nextResponse
            then (Response true (spread notes (notesDispensed nextResponse)),
                  Some n')
            else (Response false notes, Some n')
          else (Response false notes, next)
        | None => (Response false notes, next)
        end in
    let count2 :=
      if success response then count1
      else (count1 + orZero (lookup value (notesDispensed response)))%float in
    (response, NoteHandler value count2 next')
  end.

(** [MainHandler.dispense] (lines 29-39). *)
Definition MainHandler_dispense (nextHandler : INoteHandler) (amount : float)
    : IDispenseResponse * INoteHandler :=
  if (amount <=? 0)%float || (amount <? 100)%float then
    (Response false [], nextHandler)
  else
    let '(response, chain) := dispense nextHandler amount in
    (if success response then response else Response false [], chain).

(** [getNoteCount] (lines 95-98), the numbers read as integers. *)
Fixpoint getNoteCount (h : INoteHandler) : list (option Z * option Z) :=
  match h with
  | NoteHandler value count next =>
    (integer value, integer count) ::
      match next with Some n => getNoteCount n | None => [] end
  end.

(** The entries of an object, the numbers read as integers. *)
Definition entries (object : list (float * float))
    : list (option Z * option Z) :=
  (λ entry, (integer entry.1, integer entry.2)) <$> object.

(** The value of an allocation: the sum of note value times count
    over its entries, if all of them are integers. *)
Definition weightedSum (object : list (float * float)) : option Z :=
  foldr (λ entry acc,
           value ← integer entry.1; count ← integer entry.2; sum ← acc;
           Some (value * count + sum))
        (Some 0) object.

(** The example wiring of lines 120-126. *)
Definition exampleChain (thousands fiveHundreds hundreds : float)
    : INoteHandler :=
  NoteHandler 1000 thousands
    (Some (NoteHandler 500 fiveHundreds (Some (NoteHandler 100 hundreds None)))).

(** Four million billion notes of 3 before ten notes of 1. *)
Definition threesAndOnes : INoteHandler :=
  NoteHandler 3 4000000000000000 (Some (NoteHandler 1 10 None)).

(** A handler for the note of 100 that holds 2^53 + 2 notes. *)
Definition manyHundreds : INoteHandler :=
  NoteHandler 100 9007199254740994 None.

(** The binary64 number for an integer of magnitude below 2^63; up to
    2^53 it is that integer. *)
Definition number (z : Z) : float :=
  if z <? 0 then (- of_uint63 (Uint63.of_Z (- z)))%float
  else of_uint63 (Uint63.of_Z z).

End Binary64.

(** A chain of the main model as a chain of binary64 numbers. *)
Fixpoint toBinary64 (h : INoteHandler) : Binary64.INoteHandler :=
  match h with
  | NoteHandler value count next =>
    Binary64.NoteHandler (Binary64.number value) (Binary64.number count)
      match next with Some n => Some (toBinary64 n) | None => None end
  end.

(** The two models give the same run: the same success flag, the same
    entry, or none, under every note value of the chain and as many
    entries in all, and the same stock afterwards. *)
Definition sameRun (h : INoteHandler) (amount : Z) : bool :=
  let exact := dispense h amount in
  let rounded := Binary64.dispense (toBinary64 h) (Binary64.number amount) in
  bool_decide (success (responseOf exact) = Binary64.success rounded.1)
  && bool_decide
       ((λ value, notesDispensed (responseOf exact) !! value) <$> denominations h
        = (λ value,
             x ← Binary64.lookup (Binary64.number value)
                   (Binary64.notesDispensed rounded.1);
             Binary64.integer x) <$> denominations h)
  && bool_decide
       (length (map_to_list (notesDispensed (responseOf exact)))
        = length (Binary64.notesDispensed rounded.1))
  && bool_decide
       ((λ entry, (Some entry.1, Some entry.2)) <$> getNoteCount (chainAfter exact)
        = Binary64.getNoteCount rounded.2).

(** ** Reasoning principles *)

(** Closed decidable side conditions are settled by computation. *)
Ltac by_computation := apply (bool_decide_unpack _); vm_compute; exact I.

(** A concrete amount and stock lie in the safe range. *)
Ltac in_safe_range := unfold withinSafeRange; vm_compute; discriminate.

(** Induction along the chain. *)
Lemma chain_ind (P : INoteHandler → Prop) :
  (∀ value count, P (NoteHandler value count None)) →
  (∀ value count n, P n → P (NoteHandler value count (Some n))) →
  ∀ h, P h.
Proof.
  intros Hlast Hlink. fix IH 1.
  intros [value count [n|]]; [apply Hlink, IH | apply Hlast].
Qed.

(** Every call of [dispense] goes one of the four ways. *)
Lemma dispense_dispenses h : ∀ amount,
  dispenses h amount (responseOf (dispense h amount))
    (chainAfter (dispense h amount)) (callsOf (dispense h amount)).
Proof.
  unfold responseOf, chainAfter, callsOf.
  induction h as [value count | value count n IH] using chain_ind;
    intros amount; simpl;
    destruct (settle value count _ amount) as [[notes count1] rest] eqn:Hs;
    destruct (Z.eqb_spec rest 0) as [->|Hne]; simpl;
    try (by apply dispenses_exact).
  - apply (dispenses_stuck _ _ _ _ _ _ rest); auto.
  - destruct (Z.ltb_spec 0 rest) as [Hpos|Hneg].
    + specialize (IH rest).
      destruct (dispense n rest) as [[r n'] calls]; simpl in *.
      destruct (success r) eqn:Hr; simpl.
      * by apply (dispenses_forward _ _ _ _ _ _ rest).
      * by apply (dispenses_restore _ _ _ _ _ _ rest r).
    + apply (dispenses_stuck _ _ _ _ _ _ rest); auto. left; lia.
Qed.

(** What [settle] hands back, whichever branch it takes. *)
Lemma settle_alloc value count next amount notes count1 rest :
  settle value count next amount = (notes, count1, rest) →
  count1 = count - dispensedOrZero notes value ∧
  rest = amount - value * dispensedOrZero notes value ∧
  (notes = ∅ ∨ notes = {[ value := dispensedOrZero notes value ]}).
Proof.
  unfold settle, dispensedOrZero. intros Hs.
  repeat case_match; simplify_eq;
    rewrite ?insert_empty, ?lookup_singleton_eq, ?lookup_empty; simpl;
    repeat split; auto; lia.
Qed.

Lemma weightedSum_empty : weightedSum ∅ = 0.
Proof. apply map_fold_empty. Qed.

Lemma weightedSum_insert (notes : gmap Z Z) value count :
  notes !! value = None →
  weightedSum (<[value := count]> notes) = value * count + weightedSum notes.
Proof.
  intros Hfresh. unfold weightedSum.
  rewrite map_fold_insert_L; [done | intros; lia | done].
Qed.

Lemma weightedSum_singleton value count :
  weightedSum {[ value := count ]} = value * count.
Proof. unfold weightedSum. rewrite map_fold_singleton. lia. Qed.

(** [settle] writes at most the handler's own key. *)
Lemma settle_other_key value count next amount notes count1 rest other :
  settle value count next amount = (notes, count1, rest) →
  other ≠ value → notes !! other = None.
Proof.
  intros Hs Hne. destruct (settle_alloc _ _ _ _ _ _ _ Hs) as (_ & _ & [-> | ->]).
  - apply lookup_empty.
  - by apply lookup_singleton_ne.
Qed.

(** ** Invariants of a call, by induction on its derivation *)

(** The chain keeps its shape and its note values. *)
Lemma denominations_link value count n :
  denominations (NoteHandler value count (Some n)) = value :: denominations n.
Proof. reflexivity. Qed.

Lemma denominations_head value count next :
  value ∈ denominations (NoteHandler value count next).
Proof. apply list_elem_of_here. Qed.

Lemma dispenses_denominations h amount r h' calls :
  dispenses h amount r h' calls → denominations h' = denominations h.
Proof.
  induction 1 as [| ? ? ? ? ? ? ? ? ? ? ? ? ? IH | ? ? ? ? ? ? ? ? ? ? ? ? ? IH |];
    try done; rewrite !denominations_link; by rewrite IH.
Qed.

(** Only note values of the chain are keys of the response. *)
Lemma dispenses_keys h amount r h' calls :
  dispenses h amount r h' calls →
  ∀ key, is_Some (notesDispensed r !! key) → key ∈ denominations h.
Proof.
  induction 1 as [ value count next amount notes count1 Hs
                 | value count n amount notes count1 rest r n' calls Hs ? ? IH ?
                 | value count n amount notes count1 rest r n' calls Hs ? ? IH ?
                 | value count next amount notes count1 rest Hs ? ? ];
    intros key [x Hkey]; simpl in Hkey;
    destruct (decide (key = value)) as [-> | Hne];
    try apply denominations_head.
  all: try (rewrite (settle_other_key _ _ _ _ _ _ _ key Hs Hne) in Hkey; done).
  rewrite denominations_link. apply list_elem_of_further, IH.
  apply lookup_union_Some_raw in Hkey as [Hkey | [_ Hkey]]; [by eexists |].
  rewrite (settle_other_key _ _ _ _ _ _ _ key Hs Hne) in Hkey; done.
Qed.

(** A failed call gives back the chain it was given. *)
Lemma dispenses_failure h amount r h' calls :
  dispenses h amount r h' calls → success r = false → h' = h.
Proof.
  induction 1 as [ value count next amount notes count1 Hs
                 | value count n amount notes count1 rest r n' calls Hs ? ? IH ?
                 | value count n amount notes count1 rest r n' calls Hs ? ? IH ?
                 | value count next amount notes count1 rest Hs ? ? ];
    intros Hfail; simpl in *; try done;
    destruct (settle_alloc _ _ _ _ _ _ _ Hs) as (-> & _ & _).
  - rewrite IH by done. f_equal. lia.
  - f_equal. lia.
Qed.

(** A successful call allocates exactly the amount. *)
Lemma dispenses_exact_sum h amount r h' calls :
  dispenses h amount r h' calls →
  NoDup (denominations h) → success r = true →
  weightedSum (notesDispensed r) = amount.
Proof.
  induction 1 as [ value count next amount notes count1 Hs
                 | value count n amount notes count1 rest r n' calls Hs ? Hn IH Hr
                 | value count n amount notes count1 rest r n' calls Hs ? ? IH ?
                 | value count next amount notes count1 rest Hs ? ? ];
    intros Hdup Hok; simpl in Hok |- *; try done;
    destruct (settle_alloc _ _ _ _ _ _ _ Hs) as (_ & Hrest & Hnotes).
  - destruct Hnotes as [-> | ->].
    + rewrite weightedSum_empty. unfold dispensedOrZero in Hrest.
      rewrite lookup_empty in Hrest. simpl in Hrest. lia.
    + rewrite weightedSum_singleton. lia.
  - rewrite denominations_link in Hdup.
    apply NoDup_cons in Hdup as [Hfresh Hdup]. specialize (IH Hdup Hr).
    destruct Hnotes as [-> | ->].
    + rewrite (right_id_L ∅ (∪)). unfold dispensedOrZero in Hrest.
      rewrite lookup_empty in Hrest. simpl in Hrest. lia.
    + assert (notesDispensed r !! value = None) as Hnone.
      { destruct (notesDispensed r !! value) eqn:Hl; [|done].
        exfalso. apply Hfresh. eapply dispenses_keys; eauto. }
      rewrite <- insert_union_singleton_r by done.
      rewrite weightedSum_insert by done. lia.
Qed.

Lemma getNoteCount_unfold value count next :
  getNoteCount (NoteHandler value count next) =
  (value, count) :: from_option getNoteCount [] next.
Proof. by destruct next. Qed.

Lemma debit_untouched (notes : gmap Z Z) (entries : list (Z * Z)) :
  (∀ entry, entry ∈ entries → notes !! entry.1 = None) →
  debit notes <$> entries = entries.
Proof.
  intros Hnone. rewrite <- (list_fmap_id entries) at 2.
  apply Forall_fmap_ext_1, Forall_forall. intros [value count] Hin.
  unfold debit, dispensedOrZero. rewrite (Hnone _ Hin). simpl. f_equal. lia.
Qed.

Lemma debit_union (mine theirs : gmap Z Z) (entries : list (Z * Z)) :
  (∀ entry, entry ∈ entries → mine !! entry.1 = None) →
  debit (theirs ∪ mine) <$> entries = debit theirs <$> entries.
Proof.
  intros Hnone. apply Forall_fmap_ext_1, Forall_forall. intros entry Hin.
  unfold debit, dispensedOrZero. by rewrite lookup_union_l by auto.
Qed.

(** In a chain of distinct note values no successor repeats the head's. *)
Lemma successors_differ value count next :
  NoDup (denominations (NoteHandler value count next)) →
  ∀ entry, entry ∈ from_option getNoteCount [] next → entry.1 ≠ value.
Proof.
  unfold denominations. rewrite getNoteCount_unfold. intros Hdup entry Hin Heq.
  change (NoDup (value :: (from_option getNoteCount [] next).*1)) in Hdup.
  apply NoDup_cons in Hdup as [Hfresh _]. apply Hfresh.
  rewrite <- Heq. by apply list_elem_of_fmap_2.
Qed.

Lemma successor_fresh h amount r h' calls value :
  dispenses h amount r h' calls →
  value ∉ denominations h → notesDispensed r !! value = None.
Proof.
  intros Hrun Hfresh. destruct (notesDispensed r !! value) eqn:Hl; [|done].
  exfalso. apply Hfresh. eapply dispenses_keys; eauto.
Qed.

(** A successful call takes out of every handler what the response
    records for its note value, and nothing else. *)
Lemma dispenses_success_stock h amount r h' calls :
  dispenses h amount r h' calls →
  NoDup (denominations h) → success r = true →
  getNoteCount h' = debit (notesDispensed r) <$> getNoteCount h.
Proof.
  induction 1 as [ value count next amount notes count1 Hs
                 | value count n amount notes count1 rest r n' calls Hs ? Hn IH Hr
                 | value count n amount notes count1 rest r n' calls Hs ? ? IH ?
                 | value count next amount notes count1 rest Hs ? ? ];
    intros Hdup Hok; simpl in Hok; try done;
    destruct (settle_alloc _ _ _ _ _ _ _ Hs) as (Hcount & _ & _);
    pose proof (successors_differ _ _ _ Hdup) as Hdiffer;
    rewrite !getNoteCount_unfold, fmap_cons; simpl notesDispensed.
  - f_equal; [unfold debit; simpl; by rewrite Hcount |].
    symmetry. apply debit_untouched. intros entry Hin.
    apply (settle_other_key _ _ _ _ _ _ _ _ Hs); auto.
  - rewrite denominations_link in Hdup.
    apply NoDup_cons in Hdup as [Hfresh Hdup].
    simpl from_option in *. rewrite (IH Hdup Hr). f_equal.
    + unfold debit, dispensedOrZero; simpl.
      rewrite lookup_union_r by (by eapply successor_fresh).
      by rewrite Hcount.
    + symmetry. apply debit_union. intros entry Hin.
      apply (settle_other_key _ _ _ _ _ _ _ _ Hs); auto.
Qed.

(** A handler that starts with a non-negative count keeps one, and its
    own allocation never exceeds what it holds. *)
Lemma settle_within_stock value count next amount notes count1 rest :
  settle value count next amount = (notes, count1, rest) →
  0 <= count → 0 <= count1 ∧ dispensedOrZero notes value <= count.
Proof.
  unfold settle, dispensedOrZero. intros Hs Hcount.
  repeat case_match; simplify_eq;
    rewrite ?lookup_insert_eq, ?lookup_empty; simpl; lia.
Qed.

Lemma dispenses_counts h amount r h' calls :
  dispenses h amount r h' calls →
  Forall2 (λ before after, after.1 = before.1 ∧ (0 <= before.2 → 0 <= after.2))
    (getNoteCount h) (getNoteCount h').
Proof.
  induction 1 as [ value count next amount notes count1 Hs
                 | value count n amount notes count1 rest r n' calls Hs ? Hn IH Hr
                 | value count n amount notes count1 rest r n' calls Hs ? ? IH ?
                 | value count next amount notes count1 rest Hs ? ? ];
    rewrite !getNoteCount_unfold; constructor; simpl;
    try (split; [done | intros Hcount];
         destruct (settle_within_stock _ _ _ _ _ _ _ Hs Hcount);
         destruct (settle_alloc _ _ _ _ _ _ _ Hs) as (? & _ & _); lia);
    try done; apply Forall_Forall2_diag, Forall_forall; auto.
Qed.

Lemma dispenses_within_stock h amount r h' calls :
  dispenses h amount r h' calls →
  NoDup (denominations h) →
  ∀ value count, (value, count) ∈ getNoteCount h → 0 <= count →
  dispensedOrZero (notesDispensed r) value <= count.
Proof.
  induction 1 as [ value count next amount notes count1 Hs
                 | value count n amount notes count1 rest r n' calls Hs ? Hn IH Hr
                 | value count n amount notes count1 rest r n' calls Hs ? ? IH ?
                 | value count next amount notes count1 rest Hs ? ? ];
    intros Hdup v c Hin Hc;
    pose proof (successors_differ _ _ _ Hdup) as Hdiffer;
    rewrite getNoteCount_unfold in Hin; simpl notesDispensed;
    apply elem_of_cons in Hin as [Heq | Hin]; simplify_eq.
  all: try (pose proof (Hdiffer _ Hin) as Hne; simpl in Hne).
  all: try (rewrite denominations_link in Hdup;
            apply NoDup_cons in Hdup as [Hfresh Hdup]).
  all: unfold dispensedOrZero;
       rewrite ?(lookup_union_r (notesDispensed r))
         by (by eapply successor_fresh).
  all: try (by eapply proj2, settle_within_stock).
  all: try (by rewrite (settle_other_key _ _ _ _ _ _ _ _ Hs Hne)).
  rewrite lookup_union_l by (by apply (settle_other_key _ _ _ _ _ _ _ _ Hs)).
  by apply IH.
Qed.

(** A common divisor of the note values divides every amount the chain
    can pay. *)
Lemma dispenses_divisible h amount r h' calls unit :
  dispenses h amount r h' calls →
  Forall (λ value, (unit | value)) (denominations h) →
  success r = true → (unit | amount).
Proof.
  induction 1 as [ value count next amount notes count1 Hs
                 | value count n amount notes count1 rest r n' calls Hs ? Hn IH Hr
                 | value count n amount notes count1 rest r n' calls Hs ? ? IH ?
                 | value count next amount notes count1 rest Hs ? ? ];
    intros Hunit Hok; simpl in Hok; try done;
    destruct (settle_alloc _ _ _ _ _ _ _ Hs) as (_ & Hrest & _);
    pose proof (Forall_inv Hunit) as Hvalue.
  - replace amount with (value * dispensedOrZero notes value) by lia.
    by apply Z.divide_mul_l.
  - rewrite denominations_link in Hunit. apply Forall_cons in Hunit as [_ Hunit].
    replace amount with (rest + value * dispensedOrZero notes value) by lia.
    apply Z.divide_add_r; [by apply IH | by apply Z.divide_mul_l].
Qed.

(** With non-negative stock and a non-negative amount, what a handler
    leaves to its successor lies between zero and the amount. *)
Lemma settle_rest_bounds value count next amount notes count1 rest :
  settle value count next amount = (notes, count1, rest) →
  0 < value → 0 <= count → 0 <= amount → 0 <= rest <= amount.
Proof.
  unfold settle. intros Hs Hvalue Hcount Hamount.
  pose proof (Z.mul_div_le amount value Hvalue).
  pose proof (Z.div_pos amount value Hamount Hvalue).
  repeat case_match; simplify_eq; [nia | | lia].
  assert (value * count <= value * (amount / value)) by nia. nia.
Qed.

(** A handler with more notes than the amount needs, and a note value
    that divides the amount, settles it on its own. *)
Lemma settle_plenty value count next amount notes count1 rest :
  settle value count next amount = (notes, count1, rest) →
  0 < value → (value | amount) → amount / value < count → rest = 0.
Proof.
  unfold settle. intros Hs Hvalue [q ->] Hplenty.
  rewrite Z.div_mul in * by lia.
  repeat case_match; simplify_eq; lia.
Qed.

Lemma stocked_link value count n :
  stocked (NoteHandler value count (Some n)) → 0 <= count ∧ stocked n.
Proof. unfold stocked. rewrite getNoteCount_unfold, fmap_cons. apply Forall_cons. Qed.

Lemma positiveNotes_link value count n :
  positiveNotes (NoteHandler value count (Some n)) → 0 < value ∧ positiveNotes n.
Proof. unfold positiveNotes. rewrite denominations_link. apply Forall_cons. Qed.

Lemma positiveNotes_head value count next :
  positiveNotes (NoteHandler value count next) → 0 < value.
Proof. intros Hvalues. by apply Forall_inv in Hvalues. Qed.

Lemma stocked_head value count next :
  stocked (NoteHandler value count next) → 0 <= count.
Proof.
  unfold stocked. rewrite getNoteCount_unfold, fmap_cons. apply Forall_inv.
Qed.

(** What lines 69-73 do when strictly more notes are needed than held:
    the whole stock is allocated. *)
Lemma settle_exhausts_stock value count n amount :
  count < amount / value →
  settle value count (Some n) amount
  = ({[ value := count ]}, 0, amount - value * count).
Proof.
  intros Hmore. unfold settle.
  destruct (Z.ltb_spec (amount / value) count); [lia |].
  destruct (Z.ltb_spec count (amount / value)); [|lia].
  simpl. by rewrite insert_empty.
Qed.

(** When exactly as many notes are needed as held, neither comparison
    of lines 65 and 69 holds and nothing is allocated. *)
Lemma settle_exact_stock value count next amount :
  amount / value = count → settle value count next amount = (∅, count, amount).
Proof.
  intros Hexact. unfold settle. rewrite Hexact, Z.ltb_irrefl. done.
Qed.

(** A chain is determined by what [getNoteCount] reports of it. *)
Lemma getNoteCount_inj h : ∀ h', getNoteCount h = getNoteCount h' → h = h'.
Proof.
  induction h as [value count | value count n IH] using chain_ind;
    intros [value' count' [n'|]] Heq; rewrite !getNoteCount_unfold in Heq;
    simpl in Heq; simplify_eq; try done.
  - by destruct n' as [? ? []].
  - f_equal. f_equal. apply IH. congruence.
  - by destruct n as [? ? []].
Qed.

(** ** The entry point *)

Lemma MainHandler_rejects h amount :
  amount < 100 → MainHandler_dispense h amount = (Response false ∅, h, []).
Proof.
  intros Hsmall. unfold MainHandler_dispense.
  destruct (Z.leb_spec amount 0), (Z.ltb_spec amount 100); simpl; done || lia.
Qed.

Lemma MainHandler_delegates h amount :
  100 <= amount →
  MainHandler_dispense h amount =
  (if success (responseOf (dispense h amount))
   then responseOf (dispense h amount) else Response false ∅,
   chainAfter (dispense h amount), callsOf (dispense h amount)).
Proof.
  intros Hbig. unfold MainHandler_dispense, responseOf, chainAfter, callsOf.
  destruct (Z.leb_spec amount 0), (Z.ltb_spec amount 100); simpl; try lia.
  by destruct (dispense h amount) as [[r h'] calls].
Qed.

(** The entry point succeeds exactly when the amount passes the gate
    and the chain head succeeds, and then with the head's response. *)
Lemma MainHandler_success h amount :
  success (responseOf (MainHandler_dispense h amount)) = true →
  100 <= amount ∧
  success (responseOf (dispense h amount)) = true ∧
  MainHandler_dispense h amount = dispense h amount.
Proof.
  destruct (Z.lt_ge_cases amount 100) as [Hsmall | Hbig].
  - by rewrite MainHandler_rejects.
  - rewrite MainHandler_delegates by done.
    unfold responseOf, chainAfter, callsOf.
    destruct (dispense h amount) as [[[ok notes] h'] calls]; simpl.
    destruct ok; simpl; [auto | done].
Qed.

Lemma MainHandler_failure h amount :
  success (responseOf (MainHandler_dispense h amount)) = false →
  amount < 100 ∨ success (responseOf (dispense h amount)) = false.
Proof.
  destruct (Z.lt_ge_cases amount 100) as [Hsmall | Hbig]; [auto |].
  rewrite MainHandler_delegates by done. intros Hfail. right.
  unfold responseOf in *. simpl in Hfail.
  destruct (success (dispense h amount).1.1) eqn:Hhead; [|done].
  simpl in Hfail. congruence.
Qed.

(** ** The numbers of a call stay in range *)

Lemma exposure_unfold value count next :
  exposure (NoteHandler value count next)
  = value * (Z.abs count + 1) + from_option exposure 0 next.
Proof. unfold exposure. rewrite getNoteCount_unfold. by destruct next. Qed.

Lemma exposure_nonneg h : positiveNotes h → 0 <= exposure h.
Proof.
  induction h as [value count | value count n IH] using chain_ind;
    intros Hvalues; rewrite exposure_unfold; simpl.
  - apply Forall_inv in Hvalues. simpl in Hvalues. nia.
  - apply positiveNotes_link in Hvalues as [Hvalue Hvalues].
    specialize (IH Hvalues). nia.
Qed.

(** Where the quotient of line 59 lies. *)
Lemma quotient_bounds value amount :
  0 < value →
  value * (amount / value) <= amount < value * (amount / value) + value.
Proof.
  intros Hvalue. pose proof (Z.mul_div_le amount value Hvalue).
  pose proof (Z.mul_succ_div_gt amount value Hvalue). lia.
Qed.

Lemma settleNumbers_exact value count next amount bound :
  0 < value → Z.abs amount + value * (Z.abs count + 1) <= bound →
  Forall (λ x, Z.abs x <= bound) (settleNumbers value count next amount).
Proof.
  intros Hvalue Hbound. pose proof (quotient_bounds value amount Hvalue).
  assert (Z.abs (amount / value) <= Z.abs amount) by nia.
  unfold settleNumbers. repeat case_match; repeat constructor; nia.
Qed.

Lemma settle_rest_range value count next amount notes count1 rest :
  settle value count next amount = (notes, count1, rest) →
  0 < value →
  Z.abs rest <= Z.abs amount + value * (Z.abs count + 1) ∧
  count1 + dispensedOrZero notes value = count.
Proof.
  intros Hs Hvalue. pose proof (quotient_bounds value amount Hvalue).
  destruct (settle_alloc _ _ _ _ _ _ _ Hs) as (Hcount & _ & _).
  split; [| lia]. revert Hs. unfold settle.
  repeat case_match; intros; simplify_eq; nia.
Qed.

(** Within the safe range every number of a call is an integer of
    magnitude at most 2^53. *)
Lemma numbers_exact h : ∀ amount,
  positiveNotes h → withinSafeRange h amount →
  Forall (λ x, Z.abs x <= 2 ^ 53) (numbers h amount).
Proof.
  unfold withinSafeRange.
  induction h as [value count | value count n IH] using chain_ind;
    intros amount Hvalues Hrange; rewrite exposure_unfold in Hrange;
    simpl in Hrange |- *;
    destruct (settle value count _ amount) as [[notes count1] rest] eqn:Hs.
  - pose proof (positiveNotes_head _ _ _ Hvalues) as Hvalue.
    destruct (settle_rest_range _ _ _ _ _ _ _ Hs Hvalue) as [_ Hback].
    repeat first [apply Forall_cons; split | apply Forall_app; split];
      try nia.
    + apply settleNumbers_exact; [done | lia].
    + destruct (rest =? 0); constructor.
  - apply positiveNotes_link in Hvalues as [Hvalue Hvalues].
    pose proof (exposure_nonneg _ Hvalues).
    destruct (settle_rest_range _ _ _ _ _ _ _ Hs Hvalue) as [Hrest Hback].
    repeat first [apply Forall_cons; split | apply Forall_app; split];
      try nia.
    + apply settleNumbers_exact; [done | lia].
    + destruct (rest =? 0); [constructor |].
      destruct (0 <? rest); [| constructor]. apply IH; [done | lia].
Qed.

(** On the chain of the example the two models give the same run for
    every multiple of 50 from -1000 to 17000. *)
Lemma models_agree_on_the_example :
  forallb (λ k, sameRun (exampleChain 10 10 10) (50 * k)) (seqZ (-20) 361)
  = true.
Proof. vm_compute. reflexivity. Qed.

(** ** Paying when exact change exists *)

Lemma payable_nonneg stock amount :
  payable stock amount → Forall (λ value, 0 < value) stock.*1 → 0 <= amount.
Proof.
  induction 1 as [| value count stock notes amount Hnotes _ IH]; [done |].
  rewrite fmap_cons. intros [Hvalue Hvalues]%Forall_cons.
  specialize (IH Hvalues). simpl in Hvalue. nia.
Qed.

(** From a graded stock, giving back a multiple of the largest note
    value leaves an amount that is payable too. *)
Lemma payable_less stock amount :
  payable stock amount →
  Forall (λ value, 0 < value) stock.*1 → graded stock →
  ∀ back,
    0 <= back <= amount →
    (∀ entry, head stock = Some entry → (entry.1 | back)) →
    payable stock (amount - back).
Proof.
  induction 1 as [| value count stock notes amount Hnotes Hrest IH];
    intros Hvalues Hgraded back Hback Hdiv.
  - replace (0 - back) with 0 by lia. constructor.
  - rewrite fmap_cons in Hvalues. apply Forall_cons in Hvalues as [Hvalue Hvalues].
    simpl in Hvalue. destruct (Hdiv _ eq_refl) as [m ->]. simpl in *.
    pose proof (payable_nonneg _ _ Hrest Hvalues) as Hamount.
    destruct (decide (m <= notes)) as [Hfew | Hmany].
    + replace (value * notes + amount - m * value)
        with (value * (notes - m) + amount) by lia.
      constructor; [nia | done].
    + replace (value * notes + amount - m * value)
        with (value * 0 + (amount - (m - notes) * value)) by lia.
      constructor; [lia |].
      destruct stock as [| smaller stock].
      * inversion Hrest; subst. nia.
      * destruct Hgraded as [Hsmaller Hgraded].
        apply IH; [done | done | nia |].
        intros entry [= <-]. by apply Z.divide_mul_r.
Qed.

(** What a handler takes is the smaller of what is needed and what it
    has, unless it is asked for its whole stock. *)
Lemma settle_takes value count next amount notes count1 rest :
  settle value count next amount = (notes, count1, rest) →
  0 <= count → hasNext next = true →
  meetsWholeStock (Invoke value amount) (value, count) = false →
  dispensedOrZero notes value = Z.min (amount / value) count.
Proof.
  unfold settle, dispensedOrZero, meetsWholeStock. simpl.
  intros Hs Hcount Hnext Hmet. rewrite Hnext, andb_true_r in Hs.
  destruct (Z.ltb_spec (amount / value) count);
    [| destruct (Z.ltb_spec count (amount / value))]; simplify_eq;
    rewrite ?lookup_insert_eq, ?lookup_empty; simpl; lia.
Qed.

Lemma settle_leaves_payable value count n amount notes count1 rest :
  settle value count (Some n) amount = (notes, count1, rest) →
  positiveNotes (NoteHandler value count (Some n)) →
  graded (getNoteCount (NoteHandler value count (Some n))) →
  payable (getNoteCount (NoteHandler value count (Some n))) amount →
  meetsWholeStock (Invoke value amount) (value, count) = false →
  payable (getNoteCount n) rest.
Proof.
  intros Hs Hvalues Hgraded Hpay Hmet.
  apply positiveNotes_link in Hvalues as [Hvalue Hvalues].
  rewrite getNoteCount_unfold in Hgraded, Hpay. simpl in Hgraded, Hpay.
  inversion Hpay as [| ? ? ? taken change Htaken Hchange]; subst.
  pose proof (payable_nonneg _ _ Hchange Hvalues) as Hnonneg.
  destruct (settle_alloc _ _ _ _ _ _ _ Hs) as (_ & -> & _).
  rewrite (settle_takes _ _ _ _ _ _ _ Hs) by (done || lia).
  pose proof (quotient_bounds value (value * taken + change) Hvalue).
  assert (taken <= (value * taken + change) / value) by nia.
  set (given := Z.min ((value * taken + change) / value) count) in *.
  replace (value * taken + change - value * given)
    with (change - value * (given - taken)) by lia.
  destruct n as [smaller count' next']. rewrite getNoteCount_unfold in *.
  destruct Hgraded as [Hsmaller Hgraded].
  apply payable_less; [done | | done | |].
  - unfold positiveNotes, denominations in Hvalues.
    by rewrite getNoteCount_unfold in Hvalues.
  - subst given. nia.
  - intros entry [= <-]. by apply Z.divide_mul_l.
Qed.

(** In a graded chain of positive note values and non-negative counts, a
    call for an amount that has exact change succeeds unless some
    handler is asked for its whole stock. *)
Lemma dispenses_pays_change h amount r h' calls :
  dispenses h amount r h' calls →
  positiveNotes h → stocked h → graded (getNoteCount h) →
  payable (getNoteCount h) amount →
  existsb (λ met, meetsWholeStock met.1 met.2) (zip calls (getNoteCount h))
  = false →
  success r = true.
Proof.
  induction 1 as [ value count next amount notes count1 Hs
                 | value count n amount notes count1 rest r n' calls Hs Hpos Hn IH Hr
                 | value count n amount notes count1 rest r n' calls Hs Hpos Hn IH Hr
                 | value count next amount notes count1 rest Hs Hne Hstuck ];
    intros Hvalues Hcounts Hgraded Hpay Hmet; try done; exfalso;
    rewrite getNoteCount_unfold in Hmet; simpl in Hmet;
    apply orb_false_iff in Hmet as [Hhead Hmet].
  - pose proof (settle_leaves_payable _ _ _ _ _ _ _ Hs Hvalues Hgraded Hpay Hhead).
    apply positiveNotes_link in Hvalues as [_ Hvalues].
    apply stocked_link in Hcounts as [_ Hcounts].
    rewrite getNoteCount_unfold in Hgraded. simpl in Hgraded.
    assert (graded (getNoteCount n)) as Hgraded'.
    { destruct n as [? ? ?]. rewrite getNoteCount_unfold in *. by destruct Hgraded. }
    rewrite IH in Hr; done.
  - pose proof (Forall_inv Hvalues) as Hvalue. simpl in Hvalue.
    assert (0 <= count) as Hcount.
    { unfold stocked in Hcounts. rewrite getNoteCount_unfold in Hcounts.
      by apply Forall_inv in Hcounts. }
    assert (0 <= amount) as Hamount by (eapply payable_nonneg; eauto).
    pose proof (settle_rest_bounds _ _ _ _ _ _ _ Hs Hvalue Hcount Hamount).
    destruct Hstuck as [? | ->]; [lia |]. simpl in Hpay.
    inversion Hpay as [| ? ? ? taken change Htaken Hchange]; subst.
    inversion Hchange; subst. clear Hchange Hpay.
    replace (value * taken + 0) with (taken * value) in * by lia.
    unfold meetsWholeStock in Hhead. simpl in Hhead.
    rewrite Z.div_mul in Hhead by lia.
    destruct (decide (taken < count)) as [Hless | Hall].
    + apply Hne. eapply settle_plenty; eauto.
      * by exists taken.
      * by rewrite Z.div_mul by lia.
    + assert (taken = count) as -> by lia.
      destruct (Z.eqb_spec count 0) as [-> | Hsome];
        [| by rewrite Z.eqb_refl in Hhead].
      apply Hne. rewrite (settle_exact_stock value 0 None) in Hs by done.
      by simplify_eq.
Qed.

(** * The claims *)

(** C1, the claim as stated, fails: with four million billion notes of
    3 before ten notes of 1, a request for 2^53 + 2 succeeds with notes
    worth 2^53 + 3, because the product of line 68 is rounded down by
    one.  The note values are distinct and positive. *)
Lemma unsafe_amount_is_overpaid :
  Binary64.getNoteCount Binary64.threesAndOnes
  = [(Some 3, Some 4000000000000000); (Some 1, Some 10)] ∧
  Binary64.integer 9007199254740994 = Some 9007199254740994 ∧
  Binary64.success
    (Binary64.dispense Binary64.threesAndOnes 9007199254740994).1 = true ∧
  Binary64.weightedSum
    (Binary64.notesDispensed
       (Binary64.dispense Binary64.threesAndOnes 9007199254740994).1)
  = Some 9007199254740995 ∧
  Binary64.success
    (Binary64.MainHandler_dispense Binary64.threesAndOnes 9007199254740994).1
  = true ∧
  Binary64.weightedSum
    (Binary64.notesDispensed
       (Binary64.MainHandler_dispense Binary64.threesAndOnes 9007199254740994).1)
  = Some 9007199254740995.
Proof. vm_compute. repeat split; reflexivity. Qed.

(** C1, amended.  In a chain of distinct positive note values, with the
    amount and the stock in the safe range, a successful dispense,
    whether called on the chain head or through the entry point,
    returns an allocation whose notes add up to exactly the requested
    amount. *)
Theorem successful_dispense_pays_exact_amount h amount :
  NoDup (denominations h) → positiveNotes h → withinSafeRange h amount →
  (success (responseOf (dispense h amount)) = true →
   weightedSum (notesDispensed (responseOf (dispense h amount))) = amount) ∧
  (success (responseOf (MainHandler_dispense h amount)) = true →
   weightedSum (notesDispensed (responseOf (MainHandler_dispense h amount)))
   = amount).
Proof.
  intros Hdup _ _.
  assert (success (responseOf (dispense h amount)) = true →
          weightedSum (notesDispensed (responseOf (dispense h amount))) = amount)
    as Hhead.
  { intros Hok. eapply dispenses_exact_sum; eauto using dispense_dispenses. }
  split; [done |]. intros Hok.
  apply MainHandler_success in Hok as (_ & Hok & ->). auto.
Qed.

(** C1 at work: 2700 from ten notes of each kind. *)
Lemma successful_dispense_pays_exact_amount_witness :
  weightedSum (notesDispensed (responseOf (dispense (exampleChain 10 10 10) 2700)))
  = 2700 ∧
  weightedSum
    (notesDispensed (responseOf (MainHandler_dispense (exampleChain 10 10 10) 2700)))
  = 2700.
Proof.
  destruct (successful_dispense_pays_exact_amount (exampleChain 10 10 10) 2700)
    as [Hhead Hmain]; [by_computation | by_computation | in_safe_range |].
  split; [apply Hhead | apply Hmain]; vm_compute; reflexivity.
Defined.

(** C2, the claim as stated, fails: a handler for the note of 100 that
    holds 2^53 + 2 notes refuses 150 and is left with 2^53 notes,
    because the difference of line 67 and the sum of line 89 are both
    rounded down by one. *)
Lemma unsafe_count_is_not_restored :
  Binary64.getNoteCount Binary64.manyHundreds
  = [(Some 100, Some 9007199254740994)] ∧
  Binary64.success (Binary64.dispense Binary64.manyHundreds 150).1 = false ∧
  Binary64.getNoteCount (Binary64.dispense Binary64.manyHundreds 150).2
  = [(Some 100, Some 9007199254740992)] ∧
  Binary64.success (Binary64.MainHandler_dispense Binary64.manyHundreds 150).1
  = false ∧
  Binary64.getNoteCount (Binary64.MainHandler_dispense Binary64.manyHundreds 150).2
  = [(Some 100, Some 9007199254740992)].
Proof. vm_compute. repeat split; reflexivity. Qed.

(** C2, amended.  With positive note values and the amount and the
    stock in the safe range, a failed dispense gives back the chain
    exactly as it found it, so every handler's [noteCount] is what it
    was before the call; a second call with the same amount then behaves
    as the first did and leaves the same stock. *)
Theorem failed_dispense_leaves_stock h amount :
  positiveNotes h → withinSafeRange h amount →
  (success (responseOf (dispense h amount)) = false →
   chainAfter (dispense h amount) = h ∧
   getNoteCount (chainAfter (dispense h amount)) = getNoteCount h ∧
   dispense (chainAfter (dispense h amount)) amount = dispense h amount) ∧
  (success (responseOf (MainHandler_dispense h amount)) = false →
   chainAfter (MainHandler_dispense h amount) = h ∧
   getNoteCount (chainAfter (MainHandler_dispense h amount)) = getNoteCount h ∧
   MainHandler_dispense (chainAfter (MainHandler_dispense h amount)) amount
   = MainHandler_dispense h amount).
Proof.
  intros _ _.
  assert (success (responseOf (dispense h amount)) = false →
          chainAfter (dispense h amount) = h) as Hhead.
  { intros Hfail. eapply dispenses_failure; eauto using dispense_dispenses. }
  split; intros Hfail.
  - by rewrite Hhead.
  - assert (chainAfter (MainHandler_dispense h amount) = h) as Hsame.
    { apply MainHandler_failure in Hfail as [Hsmall | Hfail].
      - by rewrite MainHandler_rejects.
      - destruct (Z.lt_ge_cases amount 100) as [Hsmall | Hbig].
        + by rewrite MainHandler_rejects.
        + rewrite MainHandler_delegates by done. simpl. auto. }
    by rewrite Hsame.
Qed.

(** C2 at work: 2750 leaves 50 that no handler can pay. *)
Lemma failed_dispense_leaves_stock_witness :
  getNoteCount (chainAfter (dispense (exampleChain 10 10 10) 2750))
  = getNoteCount (exampleChain 10 10 10) ∧
  getNoteCount (chainAfter (MainHandler_dispense (exampleChain 10 10 10) 2750))
  = getNoteCount (exampleChain 10 10 10).
Proof.
  destruct (failed_dispense_leaves_stock (exampleChain 10 10 10) 2750)
    as [Hhead Hmain]; [by_computation | in_safe_range |].
  split; [apply Hhead | apply Hmain]; vm_compute; reflexivity.
Defined.

(** With 10 notes of 1000, 10 of 500 and 2 of 100 the stock is worth
    15200, yet 300 cannot be paid, because only the last handler can
    contribute and it holds two notes. *)
Example three_hundred_from_two_hundreds :
  success (responseOf (dispense (exampleChain 10 10 2) 300)) = false ∧
  success (responseOf (MainHandler_dispense (exampleChain 10 10 2) 300)) = false ∧
  stockValue (exampleChain 10 10 2) = 15200.
Proof. vm_compute. auto. Qed.

(** C3, the claim as stated, fails: a descending chain of multiples of
    100 and an amount that is a multiple of 100 between 100 and the
    value of the stock, refused both by the chain head and by the entry
    point. *)
Lemma total_stock_value_does_not_suffice :
  ¬ (∀ h amount,
       Forall (λ value, (100 | value)) (denominations h) →
       StronglySorted Z.gt (denominations h) →
       stocked h →
       (100 | amount) → 100 <= amount <= stockValue h →
       success (responseOf (dispense h amount)) = true ∨
       success (responseOf (MainHandler_dispense h amount)) = true).
Proof.
  intros Hclaim.
  destruct three_hundred_from_two_hundreds as (Hhead & Hmain & Hvalue).
  enough (success (responseOf (dispense (exampleChain 10 10 2) 300)) = true ∨
          success (responseOf (MainHandler_dispense (exampleChain 10 10 2) 300))
          = true) as [Hok | Hok] by congruence.
  apply Hclaim.
  - repeat constructor; [by exists 10 | by exists 5 | by exists 1].
  - repeat constructor; lia.
  - by_computation.
  - by exists 3.
  - rewrite Hvalue. lia.
Qed.

(** A chain that is not graded: from one note of 500 and three of 200,
    600 has exact change in three notes of 200, but the head takes the
    note of 500 and the 100 left cannot be paid. *)
Example six_hundred_from_five_hundred_and_two_hundreds :
  payable [(500, 1); (200, 3)] 600 ∧
  success
    (responseOf (dispense (NoteHandler 500 1 (Some (NoteHandler 200 3 None))) 600))
  = false.
Proof.
  split; [| vm_compute; reflexivity].
  apply (payable_cons 500 1 _ 0 (200 * 3 + 0)); [lia |].
  apply (payable_cons 200 3 _ 3 0); [lia | constructor].
Qed.

(** C3, amended.  In a chain of positive note values in which every
    note value is a multiple of the next handler's, with non-negative
    counts and the amount and the stock in the safe range, every
    amount of at least 100 that has exact change in the stock is
    dispensed successfully, by the chain head and by the entry point,
    provided no handler on the way is asked for an amount that needs
    exactly the notes it holds. *)
Theorem dispense_succeeds_when_change_exists h amount :
  positiveNotes h → stocked h → withinSafeRange h amount →
  graded (getNoteCount h) →
  100 <= amount → payable (getNoteCount h) amount →
  wholeStockMet h amount = false →
  success (responseOf (dispense h amount)) = true ∧
  success (responseOf (MainHandler_dispense h amount)) = true.
Proof.
  intros Hvalues Hcounts _ Hgraded Hbig Hpay Hmet.
  assert (success (responseOf (dispense h amount)) = true) as Hok.
  { eapply dispenses_pays_change; eauto using dispense_dispenses. }
  split; [done |]. rewrite MainHandler_delegates by done.
  unfold responseOf at 1. simpl. by rewrite Hok.
Qed.

(** C3, amended, at work: 2700 from ten notes of each kind. *)
Lemma dispense_succeeds_when_change_exists_witness :
  success (responseOf (dispense (exampleChain 10 10 10) 2700)) = true ∧
  success (responseOf (MainHandler_dispense (exampleChain 10 10 10) 2700)) = true.
Proof.
  apply (dispense_succeeds_when_change_exists (exampleChain 10 10 10) 2700).
  - by_computation.
  - by_computation.
  - in_safe_range.
  - simpl. split; [by exists 2 | split; [by exists 5 | done]].
  - lia.
  - apply (payable_cons 1000 10 _ 2 (500 * 1 + (100 * 2 + 0))); [lia |].
    apply (payable_cons 500 10 _ 1 (100 * 2 + 0)); [lia |].
    apply (payable_cons 100 10 _ 2 0); [lia | constructor].
  - vm_compute. reflexivity.
Defined.

(** C4.  The claim's case of a handler that needs exactly as many notes
    as it holds: ten notes of 1000 and a request for 10000.  Neither
    branch of lines 65-73 is taken; nothing is allocated, the whole
    amount is left, and the count stays at ten.  The request then fails
    although the ten notes would have paid it. *)
Example exact_stock_is_not_allocated :
  10000 / 1000 >= 10 ∧
  settle 1000 10
    (Some (setNext (FiveHundredWorthHandler 10) (HundredWorthHandler 10)))
    10000
  = (∅, 10, 10000) ∧
  responseOf (dispense (exampleChain 10 10 10) 10000) = Response false ∅ ∧
  chainAfter (dispense (exampleChain 10 10 10) 10000) = exampleChain 10 10 10.
Proof. vm_compute. repeat split; congruence. Qed.

(** C5.  An amount that is not positive, or below 100, is rejected by
    the entry point with an empty allocation; no handler is called and
    the chain is returned as it was. *)
Theorem small_amounts_are_rejected h amount :
  amount <= 0 ∨ amount < 100 →
  responseOf (MainHandler_dispense h amount) = Response false ∅ ∧
  callsOf (MainHandler_dispense h amount) = [] ∧
  chainAfter (MainHandler_dispense h amount) = h.
Proof.
  intros Hgate. rewrite MainHandler_rejects by lia. done.
Qed.

(** C5 at work: a request for 50. *)
Lemma small_amounts_are_rejected_witness :
  responseOf (MainHandler_dispense (exampleChain 10 10 10) 50) = Response false ∅ ∧
  callsOf (MainHandler_dispense (exampleChain 10 10 10) 50) = [] ∧
  chainAfter (MainHandler_dispense (exampleChain 10 10 10) 50)
  = exampleChain 10 10 10.
Proof.
  apply (small_amounts_are_rejected (exampleChain 10 10 10) 50). right. lia.
Defined.

(** C6, the claim as stated, fails: for 2750 the chain head fails with its own
    provisional allocation of two notes of 1000 still in the response,
    while the entry point answers with an empty allocation. *)
Lemma failed_response_is_not_passed_through :
  ¬ (∀ h amount,
       100 <= amount →
       responseOf (MainHandler_dispense h amount) = responseOf (dispense h amount)).
Proof.
  intros Hclaim.
  specialize (Hclaim (exampleChain 10 10 10) 2750 ltac:(lia)).
  apply (f_equal (λ r, notesDispensed r !! 1000)) in Hclaim.
  vm_compute in Hclaim. discriminate.
Qed.

(** C6, amended.  For an amount of at least 100 the entry point calls
    the chain head once and reports the head's success flag; a
    successful response is returned as it is, a failed one is replaced
    by a failure with an empty allocation.  Calls and stock are the
    head's. *)
Theorem entry_point_passes_success_through h amount :
  100 <= amount →
  (success (responseOf (dispense h amount)) = true →
   responseOf (MainHandler_dispense h amount) = responseOf (dispense h amount)) ∧
  (success (responseOf (dispense h amount)) = false →
   responseOf (MainHandler_dispense h amount) = Response false ∅) ∧
  success (responseOf (MainHandler_dispense h amount))
  = success (responseOf (dispense h amount)) ∧
  chainAfter (MainHandler_dispense h amount) = chainAfter (dispense h amount) ∧
  callsOf (MainHandler_dispense h amount) = callsOf (dispense h amount).
Proof.
  intros Hbig. rewrite MainHandler_delegates by done.
  unfold responseOf, chainAfter, callsOf.
  destruct (dispense h amount) as [[[ok notes] h'] calls]; simpl.
  destruct ok; simpl; repeat split; congruence.
Qed.

(** C6, amended, at work: 2700 from ten notes of each kind. *)
Lemma entry_point_passes_success_through_witness :
  responseOf (MainHandler_dispense (exampleChain 10 10 10) 2700)
  = responseOf (dispense (exampleChain 10 10 10) 2700).
Proof.
  apply (entry_point_passes_success_through (exampleChain 10 10 10) 2700).
  - lia.
  - vm_compute. reflexivity.
Defined.

(** With the note values 100, 50 and 20 of the example in the
    documentation of [IDispenseResponse], 150 is paid by one note of 100
    and one of 50. *)
Example one_hundred_fifty_without_twenties :
  success
    (responseOf
       (dispense
          (NoteHandler 100 10 (Some (NoteHandler 50 10 (Some (NoteHandler 20 10 None)))))
          150)) = true ∧
  success
    (responseOf
       (MainHandler_dispense
          (NoteHandler 100 10 (Some (NoteHandler 50 10 (Some (NoteHandler 20 10 None)))))
          150)) = true.
Proof. vm_compute. auto. Qed.

(** C7, the claim as stated, fails: 150 is not a multiple of the
    smallest note of the chain 100, 50, 20, and is dispensed. *)
Lemma smallest_note_need_not_divide :
  ¬ (∀ h amount,
       positiveNotes h → NoDup (denominations h) →
       StronglySorted Z.gt (denominations h) → stocked h →
       ¬ (smallestDenomination h | amount) →
       success (responseOf (dispense h amount)) = false ∨
       success (responseOf (MainHandler_dispense h amount)) = false).
Proof.
  intros Hclaim.
  destruct one_hundred_fifty_without_twenties as [Hhead Hmain].
  enough (success
            (responseOf
               (dispense
                  (NoteHandler 100 10
                     (Some (NoteHandler 50 10 (Some (NoteHandler 20 10 None)))))
                  150)) = false ∨
          success
            (responseOf
               (MainHandler_dispense
                  (NoteHandler 100 10
                     (Some (NoteHandler 50 10 (Some (NoteHandler 20 10 None)))))
                  150)) = false) as [Hfail | Hfail] by congruence.
  apply Hclaim.
  - by_computation.
  - by_computation.
  - repeat constructor; lia.
  - by_computation.
  - simpl. intros [q Hq]. lia.
Qed.

(** C7, amended.  In a chain of positive note values that are all
    multiples of the smallest one, with the amount and the stock in the
    safe range, an amount that is not a multiple of the smallest note
    value is never dispensed. *)
Theorem amount_off_the_smallest_note_fails h amount :
  positiveNotes h → withinSafeRange h amount →
  Forall (λ value, (smallestDenomination h | value)) (denominations h) →
  ¬ (smallestDenomination h | amount) →
  success (responseOf (dispense h amount)) = false ∧
  success (responseOf (MainHandler_dispense h amount)) = false.
Proof.
  intros _ _ Hunit Hoff.
  assert (success (responseOf (dispense h amount)) = false) as Hhead.
  { destruct (success (responseOf (dispense h amount))) eqn:Hok; [|done].
    exfalso. apply Hoff.
    eapply dispenses_divisible; eauto using dispense_dispenses. }
  split; [done |].
  destruct (success (responseOf (MainHandler_dispense h amount))) eqn:Hok; [|done].
  apply MainHandler_success in Hok as (_ & Hok & _). congruence.
Qed.

(** C7, amended, at work: 150 from the chain 1000, 500, 100. *)
Lemma amount_off_the_smallest_note_fails_witness :
  success (responseOf (dispense (exampleChain 10 10 10) 150)) = false ∧
  success (responseOf (MainHandler_dispense (exampleChain 10 10 10) 150)) = false.
Proof.
  apply (amount_off_the_smallest_note_fails (exampleChain 10 10 10) 150).
  - by_computation.
  - in_safe_range.
  - repeat constructor; [by exists 10 | by exists 5 | by exists 1].
  - simpl. intros [q Hq]. lia.
Defined.

(** C8.  A handler whose count is not negative before a call of
    [dispense] never has a negative count: not after its own allocation
    (the state its successors see), and not after the call, for any
    handler of the chain.  What a handler allocates never exceeds the
    count it held, and in a chain of distinct note values the same holds
    of every entry of the response. *)
Theorem counts_stay_non_negative h amount :
  positiveNotes h →
  (0 <= noteCount h →
   0 <= (settle (noteValue h) (noteCount h) (nextHandler h) amount).1.2 ∧
   dispensedOrZero
     (settle (noteValue h) (noteCount h) (nextHandler h) amount).1.1
     (noteValue h) <= noteCount h) ∧
  (∀ (i : nat) value count,
     getNoteCount h !! i = Some (value, count) → 0 <= count →
     ∃ count',
       getNoteCount (chainAfter (dispense h amount)) !! i = Some (value, count') ∧
       0 <= count') ∧
  (NoDup (denominations h) →
   ∀ value count,
     (value, count) ∈ getNoteCount h → 0 <= count →
     dispensedOrZero (notesDispensed (responseOf (dispense h amount))) value
     <= count).
Proof.
  intros _. pose proof (dispense_dispenses h amount) as Hrun.
  split; [| split].
  - intros Hcount.
    destruct (settle _ _ _ amount) as [[notes count1] rest] eqn:Hs.
    by eapply settle_within_stock.
  - intros i value count Hi Hcount.
    destruct (Forall2_lookup_l _ _ _ _ _ (dispenses_counts _ _ _ _ _ Hrun) Hi)
      as ([value' count'] & Hi' & Hvalue & Hnonneg).
    simpl in *. subst value'. eauto.
  - intros Hdup. by eapply dispenses_within_stock.
Qed.

(** C8 at work: the handler of the note of 100 when 2700 is paid. *)
Lemma counts_stay_non_negative_witness :
  (0 <= (settle 1000 10 (nextHandler (exampleChain 10 10 10)) 2700).1.2 ∧
   dispensedOrZero
     (settle 1000 10 (nextHandler (exampleChain 10 10 10)) 2700).1.1 1000 <= 10) ∧
  (∃ count',
     getNoteCount (chainAfter (dispense (exampleChain 10 10 10) 2700)) !! 2%nat
     = Some (100, count') ∧ 0 <= count') ∧
  dispensedOrZero
    (notesDispensed (responseOf (dispense (exampleChain 10 10 10) 2700))) 100
  <= 10.
Proof.
  destruct (counts_stay_non_negative (exampleChain 10 10 10) 2700)
    as (Hown & Hafter & Hresponse); [by_computation |].
  split; [| split].
  - apply Hown. simpl. lia.
  - apply (Hafter 2%nat 100 10); [reflexivity | lia].
  - apply Hresponse; [by_computation | | lia].
    apply list_elem_of_lookup. by exists 2%nat.
Defined.

(** C9.  The handlers of the example, ten notes each, linked from the
    smallest note to the largest instead of from the largest to the
    smallest: 2700 is paid by the descending chain and refused by the
    ascending one. *)
Theorem handler_order_matters :
  getNoteCount (ascendingChain 10 10 10)
  = reverse (getNoteCount (exampleChain 10 10 10)) ∧
  ∃ amount,
    responseOf (dispense (exampleChain 10 10 10) amount)
    ≠ responseOf (dispense (ascendingChain 10 10 10) amount) ∧
    responseOf (MainHandler_dispense (exampleChain 10 10 10) amount)
    ≠ responseOf (MainHandler_dispense (ascendingChain 10 10 10) amount).
Proof.
  split; [reflexivity |]. exists 2700.
  split; intros Heq; apply (f_equal success) in Heq;
    vm_compute in Heq; discriminate.
Qed.

(** C10, the claim as stated, fails: a handler for the note of 100
    that holds 2^53 + 2 notes pays 100 with one note and is left with
    2^53 notes, two fewer, because the difference of line 67 is rounded
    down by one. *)
Lemma unsafe_count_is_debited_twice :
  Binary64.getNoteCount Binary64.manyHundreds
  = [(Some 100, Some 9007199254740994)] ∧
  Binary64.success (Binary64.dispense Binary64.manyHundreds 100).1 = true ∧
  Binary64.entries
    (Binary64.notesDispensed (Binary64.dispense Binary64.manyHundreds 100).1)
  = [(Some 100, Some 1)] ∧
  Binary64.getNoteCount (Binary64.dispense Binary64.manyHundreds 100).2
  = [(Some 100, Some 9007199254740992)] ∧
  Binary64.success (Binary64.MainHandler_dispense Binary64.manyHundreds 100).1
  = true ∧
  Binary64.getNoteCount (Binary64.MainHandler_dispense Binary64.manyHundreds 100).2
  = [(Some 100, Some 9007199254740992)].
Proof. vm_compute. repeat split; reflexivity. Qed.

(** C10, amended.  After a successful dispense in a chain of distinct
    positive note values, with the amount and the stock in the safe
    range, every handler has its note value and its place in the chain
    as before, and its count is the old count less the count the
    response records under its note value, nothing if there is none. *)
Theorem successful_dispense_debits_stock h amount :
  NoDup (denominations h) → positiveNotes h → withinSafeRange h amount →
  (success (responseOf (dispense h amount)) = true →
   getNoteCount (chainAfter (dispense h amount))
   = debit (notesDispensed (responseOf (dispense h amount))) <$> getNoteCount h) ∧
  (success (responseOf (MainHandler_dispense h amount)) = true →
   getNoteCount (chainAfter (MainHandler_dispense h amount))
   = debit (notesDispensed (responseOf (MainHandler_dispense h amount)))
       <$> getNoteCount h).
Proof.
  intros Hdup _ _.
  assert (success (responseOf (dispense h amount)) = true →
          getNoteCount (chainAfter (dispense h amount))
          = debit (notesDispensed (responseOf (dispense h amount)))
              <$> getNoteCount h) as Hhead.
  { intros Hok. eapply dispenses_success_stock; eauto using dispense_dispenses. }
  split; [done |]. intros Hok.
  apply MainHandler_success in Hok as (_ & Hok & ->). auto.
Qed.

(** C10 at work: 2700 from ten notes of each kind. *)
Lemma successful_dispense_debits_stock_witness :
  getNoteCount (chainAfter (dispense (exampleChain 10 10 10) 2700))
  = debit (notesDispensed (responseOf (dispense (exampleChain 10 10 10) 2700)))
      <$> getNoteCount (exampleChain 10 10 10) ∧
  getNoteCount (chainAfter (MainHandler_dispense (exampleChain 10 10 10) 2700))
  = debit
      (notesDispensed
         (responseOf (MainHandler_dispense (exampleChain 10 10 10) 2700)))
      <$> getNoteCount (exampleChain 10 10 10).
Proof.
  destruct (successful_dispense_debits_stock (exampleChain 10 10 10) 2700)
    as [Hhead Hmain]; [by_computation | by_computation | in_safe_range |].
  split; [apply Hhead | apply Hmain]; vm_compute; reflexivity.
Defined.

(** * Further properties of the dispenser *)

(** ** The value of the stock *)

Lemma stockValue_unfold value count next :
  stockValue (NoteHandler value count next)
  = value * count + from_option stockValue 0 next.
Proof. unfold stockValue. rewrite getNoteCount_unfold. by destruct next. Qed.

Lemma stockValue_nonneg h : positiveNotes h → stocked h → 0 <= stockValue h.
Proof.
  induction h as [value count | value count n IH] using chain_ind;
    intros Hvalues Hcounts; rewrite stockValue_unfold; simpl;
    pose proof (positiveNotes_head _ _ _ Hvalues);
    pose proof (stocked_head _ _ _ Hcounts); [nia |].
  apply positiveNotes_link in Hvalues as [_ Hvalues].
  apply stocked_link in Hcounts as [_ Hcounts].
  specialize (IH Hvalues Hcounts). nia.
Qed.

(** The books of a call: the stock loses the amount when the call
    succeeds and nothing when it fails. *)
Lemma dispenses_ledger h amount r h' calls :
  dispenses h amount r h' calls →
  stockValue h' = stockValue h - (if success r then amount else 0).
Proof.
  induction 1 as [ value count next amount notes count1 Hs
                 | value count n amount notes count1 rest r n' calls Hs ? Hn IH Hr
                 | value count n amount notes count1 rest r n' calls Hs ? Hn IH Hr
                 | value count next amount notes count1 rest Hs ? ? ];
    rewrite !stockValue_unfold; simpl;
    destruct (settle_alloc _ _ _ _ _ _ _ Hs) as (Hcount & Hrest & _);
    try rewrite Hr in IH; nia.
Qed.

(** What a call keeps true of the chain. *)
Lemma dispenses_positiveNotes h amount r h' calls :
  dispenses h amount r h' calls → positiveNotes h → positiveNotes h'.
Proof.
  intros Hrun. unfold positiveNotes.
  by rewrite (dispenses_denominations _ _ _ _ _ Hrun).
Qed.

Lemma dispenses_stocked h amount r h' calls :
  dispenses h amount r h' calls → stocked h → stocked h'.
Proof.
  intros Hrun. unfold stocked.
  induction (dispenses_counts _ _ _ _ _ Hrun) as [| before after ? ? [_ Hstep] _ IH];
    [done |].
  rewrite !fmap_cons. intros [Hhead Htail]%Forall_cons.
  apply Forall_cons. split; [by apply Hstep | by apply IH].
Qed.

(** ** What a handler allocates *)

(** From a non-negative amount and a non-negative count a handler
    allocates a non-negative number of notes, and no more than it has. *)
Lemma settle_entry_nonneg value count next amount notes count1 rest :
  settle value count next amount = (notes, count1, rest) →
  0 < value → 0 <= count → 0 <= amount →
  0 <= dispensedOrZero notes value ∧ count1 <= count.
Proof.
  unfold settle, dispensedOrZero. intros Hs Hvalue Hcount Hamount.
  pose proof (Z.div_pos amount value Hamount Hvalue).
  repeat case_match; simplify_eq;
    rewrite ?lookup_insert_eq, ?lookup_empty; simpl; lia.
Qed.

Lemma settle_lookup value count next amount notes count1 rest key x :
  settle value count next amount = (notes, count1, rest) →
  notes !! key = Some x → key = value ∧ x = dispensedOrZero notes value.
Proof.
  intros Hs Hkey. destruct (decide (key = value)) as [-> | Hne].
  - split; [done |]. unfold dispensedOrZero. by rewrite Hkey.
  - by rewrite (settle_other_key _ _ _ _ _ _ _ _ Hs Hne) in Hkey.
Qed.

Lemma dispenses_entries_nonneg h amount r h' calls :
  dispenses h amount r h' calls →
  positiveNotes h → stocked h → 0 <= amount →
  ∀ key x, notesDispensed r !! key = Some x → 0 <= x.
Proof.
  induction 1 as [ value count next amount notes count1 Hs
                 | value count n amount notes count1 rest r n' calls Hs ? Hn IH Hr
                 | value count n amount notes count1 rest r n' calls Hs ? Hn IH Hr
                 | value count next amount notes count1 rest Hs ? ? ];
    intros Hvalues Hcounts Hamount key x Hkey; simpl in Hkey;
    pose proof (positiveNotes_head _ _ _ Hvalues) as Hvalue;
    pose proof (stocked_head _ _ _ Hcounts) as Hcount;
    destruct (settle_entry_nonneg _ _ _ _ _ _ _ Hs Hvalue Hcount Hamount)
      as [Hentry _].
  2: { apply lookup_union_Some_raw in Hkey as [Hkey | [_ Hkey]].
       - apply positiveNotes_link in Hvalues as [_ Hvalues].
         apply stocked_link in Hcounts as [_ Hcounts].
         eapply IH; eauto; lia.
       - by destruct (settle_lookup _ _ _ _ _ _ _ _ _ Hs Hkey) as [_ ->]. }
  all: by destruct (settle_lookup _ _ _ _ _ _ _ _ _ Hs Hkey) as [_ ->].
Qed.

Lemma dispenses_never_adds h amount r h' calls :
  dispenses h amount r h' calls →
  positiveNotes h → stocked h → 0 <= amount →
  Forall2 (λ before after, after.1 = before.1 ∧ after.2 <= before.2)
    (getNoteCount h) (getNoteCount h').
Proof.
  induction 1 as [ value count next amount notes count1 Hs
                 | value count n amount notes count1 rest r n' calls Hs ? Hn IH Hr
                 | value count n amount notes count1 rest r n' calls Hs ? Hn IH Hr
                 | value count next amount notes count1 rest Hs ? ? ];
    intros Hvalues Hcounts Hamount;
    pose proof (positiveNotes_head _ _ _ Hvalues) as Hvalue;
    pose proof (stocked_head _ _ _ Hcounts) as Hcount;
    destruct (settle_entry_nonneg _ _ _ _ _ _ _ Hs Hvalue Hcount Hamount)
      as [Hentry Hless];
    destruct (settle_alloc _ _ _ _ _ _ _ Hs) as (Hcount1 & _ & _);
    rewrite !getNoteCount_unfold; constructor; simpl; try (split; [done | lia]).
  1, 4: apply Forall_Forall2_diag, Forall_forall; intros; split; [done | lia].
  all: apply positiveNotes_link in Hvalues as [_ Hvalues];
       apply stocked_link in Hcounts as [_ Hcounts];
       apply IH; auto; lia.
Qed.

(** A failed call reports the receiver's own provisional allocation and
    nothing of its successors'. *)
Lemma dispenses_failure_keys h amount r h' calls :
  dispenses h amount r h' calls → success r = false →
  ∀ key, is_Some (notesDispensed r !! key) → key = noteValue h.
Proof.
  destruct 1 as [ value count next amount notes count1 Hs
                | value count n amount notes count1 rest r n' calls Hs ? Hn Hr
                | value count n amount notes count1 rest r n' calls Hs ? Hn Hr
                | value count next amount notes count1 rest Hs ? ? ];
    intros Hfail key [x Hkey]; simpl in *; try done;
    by destruct (settle_lookup _ _ _ _ _ _ _ _ _ Hs Hkey).
Qed.

(** ** The calls made *)

Lemma dispenses_calls h amount r h' calls :
  dispenses h amount r h' calls →
  receiver <$> calls `prefix_of` denominations h ∧
  ∃ forwarded,
    calls = Invoke (noteValue h) amount :: forwarded ∧
    Forall (λ call, 0 < argument call) forwarded.
Proof.
  induction 1 as [ value count next amount notes count1 Hs
                 | value count n amount notes count1 rest r n' calls Hs ? Hn IH Hr
                 | value count n amount notes count1 rest r n' calls Hs ? Hn IH Hr
                 | value count next amount notes count1 rest Hs ? ? ].
  1, 4: split; [ unfold denominations; rewrite getNoteCount_unfold;
                 apply prefix_cons, prefix_nil
               | exists []; split; [done | constructor] ].
  all: destruct IH as (Hprefix & forwarded & -> & Hpos);
       split; [ rewrite denominations_link; by apply prefix_cons
              | eexists; split; [done |] ];
       constructor; [by simpl | done].
Qed.

Lemma dispenses_forwarded_bound h amount r h' calls :
  dispenses h amount r h' calls →
  positiveNotes h → stocked h → 0 <= amount →
  Forall (λ call, argument call <= amount) calls.
Proof.
  induction 1 as [ value count next amount notes count1 Hs
                 | value count n amount notes count1 rest r n' calls Hs ? Hn IH Hr
                 | value count n amount notes count1 rest r n' calls Hs ? Hn IH Hr
                 | value count next amount notes count1 rest Hs ? ? ];
    intros Hvalues Hcounts Hamount; constructor; simpl; try done;
    pose proof (positiveNotes_head _ _ _ Hvalues) as Hvalue;
    pose proof (stocked_head _ _ _ Hcounts) as Hcount;
    pose proof (settle_rest_bounds _ _ _ _ _ _ _ Hs Hvalue Hcount Hamount);
    apply positiveNotes_link in Hvalues as [_ Hvalues];
    apply stocked_link in Hcounts as [_ Hcounts];
    (eapply Forall_impl; [apply IH; auto; lia | simpl; intros; lia]).
Qed.

(** ** A handler on its own *)

Lemma rest_zero_iff_divides value amount :
  0 < value → amount - value * (amount / value) = 0 ↔ (value | amount).
Proof.
  intros Hvalue. rewrite <- Z.mod_eq by lia. apply Z.mod_divide. lia.
Qed.

Lemma settle_enough value count next amount :
  amount / value < count →
  settle value count next amount
  = ({[ value := amount / value ]}, count - amount / value,
     amount - value * (amount / value)).
Proof.
  intros Henough. unfold settle.
  destruct (Z.ltb_spec (amount / value) count); [|lia]. by rewrite insert_empty.
Qed.

Lemma settle_short_last value count amount :
  ¬ amount / value < count →
  settle value count None amount = (∅, count, amount).
Proof.
  intros Hshort. unfold settle.
  destruct (Z.ltb_spec (amount / value) count); [lia |].
  by rewrite andb_false_r.
Qed.

(** A handler that holds more notes than an exact multiple of its note
    value needs pays it alone. *)
Lemma dispense_head_alone value count next amount :
  0 < value → (value | amount) → amount / value < count →
  dispense (NoteHandler value count next) amount
  = (Response true {[ value := amount / value ]},
     NoteHandler value (count - amount / value) next,
     [Invoke value amount]).
Proof.
  intros Hvalue Hdiv Henough. simpl. rewrite settle_enough by done.
  apply rest_zero_iff_divides in Hdiv; [|done]. rewrite Hdiv. done.
Qed.

(** A handler without notes that is asked for nothing agrees. *)
Lemma dispense_nothing_from_nothing value count next amount :
  amount = 0 → amount / value = count →
  dispense (NoteHandler value count next) amount
  = (Response true ∅, NoteHandler value count next, [Invoke value amount]).
Proof.
  intros Hzero Hexact. simpl. rewrite (settle_exact_stock _ _ _ _ Hexact).
  by rewrite Hzero.
Qed.

(** ** The entry point, case by case *)

Lemma MainHandler_cases h amount :
  (amount < 100 ∧ MainHandler_dispense h amount = (Response false ∅, h, [])) ∨
  (100 <= amount ∧ success (responseOf (dispense h amount)) = true ∧
   MainHandler_dispense h amount = dispense h amount) ∨
  (100 <= amount ∧ success (responseOf (dispense h amount)) = false ∧
   MainHandler_dispense h amount
   = (Response false ∅, chainAfter (dispense h amount),
      callsOf (dispense h amount))).
Proof.
  destruct (Z.lt_ge_cases amount 100) as [Hsmall | Hbig].
  - left. split; [done |]. by apply MainHandler_rejects.
  - right. rewrite MainHandler_delegates by done.
    unfold responseOf, chainAfter, callsOf.
    destruct (dispense h amount) as [[[[] notes] h'] calls]; simpl; auto.
Qed.

Lemma MainHandler_chain h amount :
  chainAfter (MainHandler_dispense h amount) = h ∨
  chainAfter (MainHandler_dispense h amount) = chainAfter (dispense h amount).
Proof.
  destruct (MainHandler_cases h amount) as [[_ ->] | [(_ & _ & ->) | (_ & _ & ->)]];
    auto.
Qed.

Lemma MainHandler_ledger h amount :
  stockValue (chainAfter (MainHandler_dispense h amount))
  = stockValue h
    - (if success (responseOf (MainHandler_dispense h amount)) then amount else 0).
Proof.
  pose proof (dispenses_ledger _ _ _ _ _ (dispense_dispenses h amount)) as Hhead.
  destruct (MainHandler_cases h amount)
    as [[_ ->] | [(_ & Hok & ->) | (_ & Hfail & ->)]];
    unfold chainAfter at 1, responseOf at 1; simpl.
  - lia.
  - done.
  - rewrite Hfail in Hhead. done.
Qed.

Lemma MainHandler_positiveNotes h amount :
  positiveNotes h → positiveNotes (chainAfter (MainHandler_dispense h amount)).
Proof.
  intros Hvalues. destruct (MainHandler_chain h amount) as [-> | ->]; [done |].
  eapply dispenses_positiveNotes; eauto using dispense_dispenses.
Qed.

Lemma MainHandler_stocked h amount :
  stocked h → stocked (chainAfter (MainHandler_dispense h amount)).
Proof.
  intros Hcounts. destruct (MainHandler_chain h amount) as [-> | ->]; [done |].
  eapply dispenses_stocked; eauto using dispense_dispenses.
Qed.

(** ** Properties *)

(** X1.  The books balance: with positive note values and the amount
    and the stock in the safe range, after a call the stock is worth
    what it was worth before, less the requested amount if the call
    succeeded and less nothing if it failed.  This holds for the chain
    head and for the entry point, also when note values repeat in the
    chain. *)
Theorem stock_value_drops_by_amount_paid h amount :
  positiveNotes h → withinSafeRange h amount →
  stockValue (chainAfter (dispense h amount))
  = stockValue h
    - (if success (responseOf (dispense h amount)) then amount else 0) ∧
  stockValue (chainAfter (MainHandler_dispense h amount))
  = stockValue h
    - (if success (responseOf (MainHandler_dispense h amount)) then amount else 0).
Proof.
  intros _ _. split.
  - apply dispenses_ledger with (calls := callsOf (dispense h amount)).
    apply dispense_dispenses.
  - apply MainHandler_ledger.
Qed.

Lemma stock_value_drops_by_amount_paid_witness :
  stockValue (chainAfter (dispense (exampleChain 10 10 10) 2700))
  = stockValue (exampleChain 10 10 10)
    - (if success (responseOf (dispense (exampleChain 10 10 10) 2700))
       then 2700 else 0) ∧
  stockValue (chainAfter (MainHandler_dispense (exampleChain 10 10 10) 2700))
  = stockValue (exampleChain 10 10 10)
    - (if success (responseOf (MainHandler_dispense (exampleChain 10 10 10) 2700))
       then 2700 else 0).
Proof.
  apply (stock_value_drops_by_amount_paid (exampleChain 10 10 10) 2700);
    [by_computation | in_safe_range].
Defined.

(** X2.  With the amount and the stock in the safe range, a chain of
    positive note values and non-negative counts never pays more than
    its stock is worth; what the entry point pays is moreover at least
    100. *)
Theorem paid_amount_is_covered_by_stock h amount :
  positiveNotes h → stocked h → withinSafeRange h amount →
  (success (responseOf (dispense h amount)) = true → amount <= stockValue h) ∧
  (success (responseOf (MainHandler_dispense h amount)) = true →
   100 <= amount <= stockValue h).
Proof.
  intros Hvalues Hcounts _.
  pose proof (dispense_dispenses h amount) as Hrun.
  assert (success (responseOf (dispense h amount)) = true →
          amount <= stockValue h) as Hhead.
  { intros Hok. pose proof (dispenses_ledger _ _ _ _ _ Hrun) as Hbooks.
    rewrite Hok in Hbooks.
    pose proof (stockValue_nonneg _
                  (dispenses_positiveNotes _ _ _ _ _ Hrun Hvalues)
                  (dispenses_stocked _ _ _ _ _ Hrun Hcounts)).
    lia. }
  split; [done |]. intros Hok.
  apply MainHandler_success in Hok as (Hbig & Hok & _). auto.
Qed.

Lemma paid_amount_is_covered_by_stock_witness :
  2700 <= stockValue (exampleChain 10 10 10) ∧
  100 <= 2700 <= stockValue (exampleChain 10 10 10).
Proof.
  destruct (paid_amount_is_covered_by_stock (exampleChain 10 10 10) 2700)
    as [Hhead Hmain]; [by_computation | by_computation | in_safe_range |].
  split; [apply Hhead | apply Hmain]; vm_compute; reflexivity.
Defined.

(** X3.  From a chain of positive note values and non-negative counts
    no response records a negative number of notes: not the chain
    head's for a non-negative amount, and not the entry point's for any
    amount. *)
Theorem no_negative_allocation h amount :
  positiveNotes h → stocked h →
  (0 <= amount →
   ∀ value n,
     notesDispensed (responseOf (dispense h amount)) !! value = Some n → 0 <= n) ∧
  (∀ value n,
     notesDispensed (responseOf (MainHandler_dispense h amount)) !! value = Some n →
     0 <= n).
Proof.
  intros Hvalues Hcounts.
  assert (0 <= amount →
          ∀ value n,
            notesDispensed (responseOf (dispense h amount)) !! value = Some n →
            0 <= n) as Hhead.
  { intros Hamount. eapply dispenses_entries_nonneg;
      eauto using dispense_dispenses. }
  split; [done |]. intros value n.
  destruct (MainHandler_cases h amount)
    as [[_ ->] | [(Hbig & _ & ->) | (_ & _ & ->)]];
    unfold responseOf at 1; simpl;
    [by rewrite lookup_empty | apply Hhead; lia | by rewrite lookup_empty].
Qed.

Lemma no_negative_allocation_witness :
  (notesDispensed (responseOf (dispense (exampleChain 10 10 10) 2700)) !! 1000
   = Some 2 ∧ 0 <= 2) ∧
  (notesDispensed (responseOf (MainHandler_dispense (exampleChain 10 10 10) 2700))
     !! 500 = Some 1 ∧ 0 <= 1).
Proof.
  destruct (no_negative_allocation (exampleChain 10 10 10) 2700)
    as [Hhead Hmain]; [by_computation | by_computation |].
  split; (split; [vm_compute; reflexivity |]).
  - apply (Hhead ltac:(lia) 1000). vm_compute. reflexivity.
  - apply (Hmain 500). vm_compute. reflexivity.
Defined.

(** X4.  With the amount and the stock in the safe range, no call adds
    notes to a chain of positive note values and non-negative counts:
    every handler keeps its note value and its place, and its count
    after a call of the chain head with a non-negative amount, or of the
    entry point with any amount, is at most its count before. *)
Theorem stock_never_grows h amount :
  positiveNotes h → stocked h → withinSafeRange h amount →
  ∀ (i : nat) value count,
    getNoteCount h !! i = Some (value, count) →
    (0 <= amount →
     ∃ count',
       getNoteCount (chainAfter (dispense h amount)) !! i = Some (value, count') ∧
       count' <= count) ∧
    (∃ count',
       getNoteCount (chainAfter (MainHandler_dispense h amount)) !! i
       = Some (value, count') ∧ count' <= count).
Proof.
  intros Hvalues Hcounts _ i value count Hi.
  assert (0 <= amount →
          ∃ count',
            getNoteCount (chainAfter (dispense h amount)) !! i
            = Some (value, count') ∧ count' <= count) as Hhead.
  { intros Hamount.
    pose proof (dispenses_never_adds _ _ _ _ _ (dispense_dispenses h amount)
                  Hvalues Hcounts Hamount) as Hall.
    destruct (Forall2_lookup_l _ _ _ _ _ Hall Hi)
      as ([value' count'] & Hi' & Hvalue & Hless).
    simpl in *. subst value'. eauto. }
  split; [done |].
  destruct (MainHandler_cases h amount)
    as [[_ ->] | [(Hbig & _ & ->) | (Hbig & _ & ->)]];
    unfold chainAfter at 1; simpl;
    [exists count; split; [done | lia] | apply Hhead; lia | apply Hhead; lia].
Qed.

Lemma stock_never_grows_witness :
  (∃ count',
     getNoteCount (chainAfter (dispense (exampleChain 10 10 10) 2700)) !! 0%nat
     = Some (1000, count') ∧ count' <= 10) ∧
  (∃ count',
     getNoteCount (chainAfter (MainHandler_dispense (exampleChain 10 10 10) 2700))
       !! 0%nat
     = Some (1000, count') ∧ count' <= 10).
Proof.
  destruct (stock_never_grows (exampleChain 10 10 10) 2700
              ltac:(by_computation) ltac:(by_computation) ltac:(in_safe_range)
              0%nat 1000 10)
    as [Hhead Hmain]; [reflexivity |].
  split; [apply Hhead; lia | apply Hmain].
Defined.

(** X5.  A call visits the handlers in chain order, one call each and
    none skipped, starting with the receiver and the requested amount;
    whatever is forwarded to a successor is a positive amount.  The
    entry point makes the same calls or none. *)
Theorem handlers_are_called_in_chain_order h amount :
  positiveNotes h →
  (receiver <$> callsOf (dispense h amount) `prefix_of` denominations h ∧
   ∃ forwarded,
     callsOf (dispense h amount) = Invoke (noteValue h) amount :: forwarded ∧
     Forall (λ call, 0 < argument call) forwarded) ∧
  (callsOf (MainHandler_dispense h amount) = [] ∨
   callsOf (MainHandler_dispense h amount) = callsOf (dispense h amount)).
Proof.
  intros _. split.
  - eapply dispenses_calls, dispense_dispenses.
  - destruct (MainHandler_cases h amount)
      as [[_ ->] | [(_ & _ & ->) | (_ & _ & ->)]]; auto.
Qed.

Lemma handlers_are_called_in_chain_order_witness :
  receiver <$> callsOf (dispense (exampleChain 10 10 10) 1500)
  `prefix_of` denominations (exampleChain 10 10 10).
Proof.
  apply (handlers_are_called_in_chain_order (exampleChain 10 10 10) 1500).
  by_computation.
Defined.

(** X6.  With positive note values, non-negative counts and a
    non-negative amount, no handler of the chain is asked for more than
    the amount originally requested. *)
Theorem no_handler_is_asked_for_more h amount :
  positiveNotes h → stocked h → 0 <= amount →
  Forall (λ call, argument call <= amount) (callsOf (dispense h amount)).
Proof.
  intros Hvalues Hcounts Hamount.
  eapply dispenses_forwarded_bound; eauto using dispense_dispenses.
Qed.

Lemma no_handler_is_asked_for_more_witness :
  Forall (λ call, argument call <= 2700)
    (callsOf (dispense (exampleChain 10 10 10) 2700)).
Proof.
  apply (no_handler_is_asked_for_more (exampleChain 10 10 10) 2700);
    [by_computation | by_computation | lia].
Defined.

(** X7.  A response only has entries for note values of the chain, and
    a failed response of a handler only for the handler's own: the
    allocations of its successors are merged in on success alone. *)
Theorem response_keys_are_note_values h amount :
  positiveNotes h →
  (∀ value,
     is_Some (notesDispensed (responseOf (dispense h amount)) !! value) →
     value ∈ denominations h) ∧
  (success (responseOf (dispense h amount)) = false →
   ∀ value,
     is_Some (notesDispensed (responseOf (dispense h amount)) !! value) →
     value = noteValue h).
Proof.
  intros _. pose proof (dispense_dispenses h amount) as Hrun. split.
  - by eapply dispenses_keys.
  - by eapply dispenses_failure_keys.
Qed.

Lemma response_keys_are_note_values_witness :
  (is_Some (notesDispensed (responseOf (dispense (exampleChain 10 10 10) 2700))
              !! 500) ∧
   500 ∈ denominations (exampleChain 10 10 10)) ∧
  (success (responseOf (dispense (exampleChain 10 10 10) 2750)) = false ∧
   ∀ value,
     is_Some (notesDispensed (responseOf (dispense (exampleChain 10 10 10) 2750))
                !! value) →
     value = 1000).
Proof.
  destruct (response_keys_are_note_values (exampleChain 10 10 10) 2700)
    as [Hkeys _]; [by_computation |].
  destruct (response_keys_are_note_values (exampleChain 10 10 10) 2750)
    as [_ Hfailed]; [by_computation |].
  assert (is_Some (notesDispensed (responseOf (dispense (exampleChain 10 10 10) 2700))
                     !! 500)) as Hentry
    by (exists 1; vm_compute; reflexivity).
  split; [split; [exact Hentry | apply Hkeys, Hentry] |].
  split; [vm_compute; reflexivity |].
  apply Hfailed. vm_compute. reflexivity.
Defined.

(** X8.  With the amount and its stock in the safe range, the last
    handler of a chain, or a handler on its own, pays exactly the
    multiples of its note value that need fewer notes than it holds,
    and the amount zero; in particular it refuses the amount that needs
    all the notes it has. *)
Theorem last_handler_pays_iff value count amount :
  0 < value → withinSafeRange (NoteHandler value count None) amount →
  success (responseOf (dispense (NoteHandler value count None) amount)) = true
  ↔ ((value | amount) ∧ amount / value < count) ∨ amount = 0.
Proof.
  intros Hvalue _. unfold responseOf.
  destruct (decide (amount / value < count)) as [Henough | Hshort]; simpl.
  - rewrite settle_enough by done.
    pose proof (rest_zero_iff_divides value amount Hvalue) as Hrest.
    destruct (Z.eqb_spec (amount - value * (amount / value)) 0) as [Hzero | Hleft];
      simpl.
    + split; [intros _; left; split; [by apply Hrest | done] | done].
    + split; [done |]. intros [[Hdiv _] | ->].
      * by apply Hrest in Hdiv.
      * exfalso. apply Hleft. rewrite Z.div_0_l by lia. lia.
  - rewrite settle_short_last by done.
    destruct (Z.eqb_spec amount 0) as [-> | Hne]; simpl.
    + split; [auto | done].
    + split; [done |]. intros [[_ ?] | ?]; done.
Qed.

Lemma last_handler_pays_iff_witness :
  success (responseOf (dispense (HundredWorthHandler 10) 900)) = true ∧
  ¬ ((100 | 1000) ∧ 1000 / 100 < 10 ∨ 1000 = 0).
Proof.
  split.
  - apply (last_handler_pays_iff 100 10 900); [lia | in_safe_range |].
    left. split; [by exists 9 | reflexivity].
  - intros Hpays.
    apply (last_handler_pays_iff 100 10 1000) in Hpays;
      [| lia | in_safe_range].
    vm_compute in Hpays. discriminate.
Defined.



(** X10.  No call changes the note values of the chain or their order,
    whether it succeeds or fails, and a chain of non-negative counts
    stays one; so a chain that is fit for one request is fit for the
    next. *)
Theorem chain_stays_fit_for_service h amount :
  positiveNotes h →
  (denominations (chainAfter (dispense h amount)) = denominations h ∧
   denominations (chainAfter (MainHandler_dispense h amount)) = denominations h) ∧
  (stocked h →
   stocked (chainAfter (dispense h amount)) ∧
   stocked (chainAfter (MainHandler_dispense h amount))).
Proof.
  intros _. pose proof (dispense_dispenses h amount) as Hrun.
  pose proof (dispenses_denominations _ _ _ _ _ Hrun) as Hsame.
  split; [split; [done |] | intros Hcounts; split].
  - by destruct (MainHandler_chain h amount) as [-> | ->].
  - by eapply dispenses_stocked.
  - by apply MainHandler_stocked.
Qed.

Lemma chain_stays_fit_for_service_witness :
  denominations (chainAfter (MainHandler_dispense (exampleChain 10 10 10) 2700))
  = denominations (exampleChain 10 10 10) ∧
  stocked (chainAfter (MainHandler_dispense (exampleChain 10 10 10) 2700)).
Proof.
  destruct (chain_stays_fit_for_service (exampleChain 10 10 10) 2700)
    as [[_ Hvalues] Hcounts]; [by_computation |].
  split; [exact Hvalues | apply Hcounts; by_computation].
Defined.

(** X11.  Asked for nothing, a handler with a non-negative count reports
    success without calling its successor and without touching the
    stock; its allocation is worth zero.  The entry point refuses the
    same request. *)
Theorem zero_amount_succeeds_at_a_handler value count next :
  0 < value → 0 <= count →
  success (responseOf (dispense (NoteHandler value count next) 0)) = true ∧
  weightedSum (notesDispensed (responseOf (dispense (NoteHandler value count next) 0)))
  = 0 ∧
  chainAfter (dispense (NoteHandler value count next) 0)
  = NoteHandler value count next ∧
  callsOf (dispense (NoteHandler value count next) 0) = [Invoke value 0] ∧
  success (responseOf (MainHandler_dispense (NoteHandler value count next) 0))
  = false.
Proof.
  intros Hvalue Hcount.
  assert (0 / value = 0) as Hnone by (apply Z.div_0_l; lia).
  rewrite MainHandler_rejects by lia.
  assert (∃ notes,
            dispense (NoteHandler value count next) 0
            = (Response true notes, NoteHandler value count next, [Invoke value 0]) ∧
            weightedSum notes = 0) as (notes & -> & Hworth).
  { destruct (decide (count = 0)) as [-> | Hsome].
    - exists ∅. split; [| apply weightedSum_empty].
      by apply dispense_nothing_from_nothing.
    - exists {[ value := 0 ]}. split; [| rewrite weightedSum_singleton; lia].
      rewrite dispense_head_alone; [| done | by exists 0 | lia].
      by rewrite Hnone, Z.sub_0_r. }
  done.
Qed.

Lemma zero_amount_succeeds_at_a_handler_witness :
  success (responseOf (dispense (exampleChain 10 10 10) 0)) = true ∧
  success (responseOf (MainHandler_dispense (exampleChain 10 10 10) 0)) = false.
Proof.
  destruct (zero_amount_succeeds_at_a_handler 1000 10
              (Some (setNext (FiveHundredWorthHandler 10) (HundredWorthHandler 10))))
    as (Hhead & _ & _ & _ & Hmain); [lia | lia |].
  split; [exact Hhead | exact Hmain].
Defined.

(** X12.  Two requests served one after the other by the entry point,
    each with its amount and the stock it meets in the safe range: the
    stock ends up worth what it was, less each amount that was paid. *)
Theorem two_requests_balance h first second :
  positiveNotes h → withinSafeRange h first →
  withinSafeRange (chainAfter (MainHandler_dispense h first)) second →
  stockValue
    (chainAfter
       (MainHandler_dispense (chainAfter (MainHandler_dispense h first)) second))
  = stockValue h
    - (if success (responseOf (MainHandler_dispense h first)) then first else 0)
    - (if success
            (responseOf
               (MainHandler_dispense (chainAfter (MainHandler_dispense h first))
                  second))
       then second else 0).
Proof.
  intros _ _ _. by rewrite !MainHandler_ledger.
Qed.

Lemma two_requests_balance_witness :
  stockValue
    (chainAfter
       (MainHandler_dispense
          (chainAfter (MainHandler_dispense (exampleChain 10 10 10) 2700)) 7000))
  = 16000 - 2700 - 7000.
Proof.
  rewrite (two_requests_balance (exampleChain 10 10 10) 2700 7000);
    [vm_compute; reflexivity | by_computation | in_safe_range | in_safe_range].
Defined.


